(** * Routing engine: graph manager and routing service

    A shallow embedding of [app/services/graph_manager.py] and
    [app/services/routing_service.py], and of the way
    [app/api/v1/routes_routing.py] shares one manager between requests,
    with the properties of the routing core stated and proved over it.

    Conventions of the embedding.
    - A Python [float] is read as a real number ([R]): rounding, NaN and
      the infinities are outside the model.  The one place where the code
      starts from [float("inf")] (the running minimum of the nearest-node
      scan) is an [option R] with [None] for "no candidate yet".  Where
      rounding decides a property, the great-circle distance, the
      function is given a second time over binary64 ([Binary64]).
    - A raised exception is the [Raise] outcome of a computation.  The
      methods that assign to the manager's two attributes ([graph],
      [bbox]) take the manager and return it next to their outcome, so
      that an exception keeps whatever was assigned before it.
    - [nx.MultiDiGraph] is a pair of insertion-ordered association lists:
      the nodes with their attributes and the edges with theirs.
    - Logging and timing ([logger], [perf_counter]) have no effect on the
      results and are left out. *)

From Stdlib Require Import Reals Lra Lia ZArith List Bool String.
From Stdlib Require PrimFloat.
Import ListNotations.

Local Open Scope R_scope.

(** ** Outcomes: values and raised exceptions *)

Inductive PyExc : Type :=
| RuntimeError (msg : string)
| ValueError                  (* math domain error *)
| KeyError                    (* G.nodes[n] on an absent node *)
| TypeError                   (* a format spec applied to None *)
| ValidationError             (* pydantic: a coordinate that is None *)
| NodeNotFound                (* networkx: endpoint not in the graph *)
| NetworkXNoPath              (* networkx: target not reachable *)
| FetchError.                 (* osmnx: the map-data source failed *)

Inductive result (A : Type) : Type :=
| Ok (a : A)
| Raise (e : PyExc).
Arguments Ok {A} a.
Arguments Raise {A} e.

Definition rbind {A B} (r : result A) (k : A -> result B) : result B :=
  match r with
  | Ok a => k a
  | Raise e => Raise e
  end.

Declare Scope exc_scope.
Delimit Scope exc_scope with exc.
Notation "x <- c ;; k" := (rbind c (fun x => k))
  (at level 61, c at next level, right associativity) : exc_scope.
Local Open Scope exc_scope.

(** ** Comparisons on floats, as booleans *)

Definition Rltb (x y : R) : bool := if Rlt_dec x y then true else false.
Definition Rleb (x y : R) : bool := if Rle_dec x y then true else false.

(** Python's [min(a, b)]: the first argument unless the second is
    strictly smaller. *)
Definition py_min (a b : R) : R := if Rltb b a then b else a.

(** Python's [max(a, b)]: the first argument unless the second is
    strictly larger. *)
Definition py_max (a b : R) : R := if Rltb a b then b else a.

Definition is_None {A} (o : option A) : bool :=
  match o with
  | None => true
  | Some _ => false
  end.

(** ** app/models/routing.py *)

Record Coordinate : Type := mkCoordinate { lat : R; lon : R }.

(** ** The [math] module *)

Module math.

Definition radians (deg : R) : R := deg * (PI / 180).

(** [math.sqrt] raises [ValueError] on a negative argument. *)
Definition sqrt (x : R) : result R :=
  if Rltb x 0 then Raise ValueError else Ok (R_sqrt.sqrt x).

(** [math.atan2 y x]: the angle of the point (x, y), in (-pi, pi]. *)
Definition atan2 (y x : R) : R :=
  if Rltb 0 x then atan (y / x)
  else if Rltb x 0 then
    (if Rleb 0 y then atan (y / x) + PI else atan (y / x) - PI)
  else if Rltb 0 y then PI / 2
  else if Rltb y 0 then - (PI / 2)
  else 0.

End math.

(** ** GraphManager._haversine_distance_m *)

Definition haversine_h (a b : Coordinate) : R :=
  let lat1 := math.radians (lat a) in
  let lon1 := math.radians (lon a) in
  let lat2 := math.radians (lat b) in
  let lon2 := math.radians (lon b) in
  let dlat := lat2 - lat1 in
  let dlon := lon2 - lon1 in
  sin (dlat / 2) ^ 2 + cos lat1 * cos lat2 * sin (dlon / 2) ^ 2.

Definition _haversine_distance_m (a b : Coordinate) : result R :=
  let R_earth := 6371000 in
  let h := haversine_h a b in
  sh <- math.sqrt h ;;
  sh' <- math.sqrt (1 - h) ;;
  Ok (R_earth * 2 * math.atan2 sh sh').

(** ** The great-circle distance in binary64

    The same function over IEEE 754 double precision, the arithmetic of a
    Python [float].  Addition, subtraction, multiplication, division and
    the square root are the correctly rounded operations of the
    standard; [math.sin], [math.cos], [math.atan2] and the power behind
    [** 2] come from the C library, which is a parameter here. *)

Module Binary64.

Import PrimFloat.
Local Open Scope float_scope.

Record Libm : Type := mkLibm {
  libm_sin : float -> float;
  libm_cos : float -> float;
  libm_pow : float -> float -> float;
  libm_atan2 : float -> float -> float
}.

Record Coordinate : Type := mkCoordinate { lat : float; lon : float }.

(** [math.pi], and [math.radians], which multiplies by the constant
    [pi / 180]. *)
Definition pi : float := 0x1.921fb54442d18p+1.

Definition radians (deg : float) : float := deg * (pi / 180).

(** [math.sqrt]: ValueError on a negative argument. *)
Definition sqrt (x : float) : result float :=
  if x <? 0 then Raise ValueError else Ok (PrimFloat.sqrt x).

(** [GraphManager._haversine_distance_m] *)
Definition _haversine_distance_m (m : Libm) (a b : Coordinate) : result float :=
  let R_earth := 6371000 in
  let lat1 := radians (lat a) in
  let lon1 := radians (lon a) in
  let lat2 := radians (lat b) in
  let lon2 := radians (lon b) in
  let dlat := lat2 - lat1 in
  let dlon := lon2 - lon1 in
  let h :=
    libm_pow m (libm_sin m (dlat / 2)) 2
    + libm_cos m lat1 * libm_cos m lat2 * libm_pow m (libm_sin m (dlon / 2)) 2 in
  sh <- sqrt h ;;
  sh' <- sqrt (1 - h) ;;
  Ok (R_earth * 2 * libm_atan2 m sh sh').

(** What the C library returns (glibc, as CPython reports it) at the
    arguments that come up between the points (2.5, 0) and (-2.5, 180):
    the sine and cosine of 2.5 degrees, the sine of a right angle, and
    their squares. *)
Definition libm_at_antipodes (m : Libm) : Prop :=
  libm_sin m (-0x1.657184ae74487p-5) = -0x1.65547c4694e11p-5
  /\ libm_sin m 0x1.921fb54442d18p+0 = 1
  /\ libm_cos m 0x1.657184ae74487p-5 = 0x1.ff833f9da45f7p-1
  /\ libm_cos m (-0x1.657184ae74487p-5) = 0x1.ff833f9da45f7p-1
  /\ libm_pow m (-0x1.65547c4694e11p-5) 2 = 0x1.f2c4be7ea5e1ep-10
  /\ libm_pow m 1 2 = 1.

(** A table with just those values. *)
Definition libm_table : Libm :=
  mkLibm
    (fun x =>
       if x =? -0x1.657184ae74487p-5 then -0x1.65547c4694e11p-5
       else if x =? 0x1.921fb54442d18p+0 then 1
       else nan)
    (fun x =>
       if abs x =? 0x1.657184ae74487p-5 then 0x1.ff833f9da45f7p-1 else nan)
    (fun x y =>
       if (x =? -0x1.65547c4694e11p-5) && (y =? 2) then 0x1.f2c4be7ea5e1ep-10
       else if (x =? 1) && (y =? 2) then 1
       else nan)
    (fun _ _ => nan).

End Binary64.

(** ** The graph: [nx.MultiDiGraph] *)

Definition node : Type := Z.

(** Node attributes, as read by [data.get("x")] and [data.get("y")]. *)
Record NodeData : Type := mkNodeData { nd_x : option R; nd_y : option R }.

(** The value of an edge's ["length"] attribute when it is present. *)
Inductive PyLength : Type :=
| LenFloat (r : R)       (* an int or a float *)
| LenStr (s : string)    (* a string; [float(s)] may raise ValueError *)
| LenOther.              (* anything else; [float(...)] raises TypeError *)

(** Edge attributes: ["length"], a numeric ["weight"] (absent otherwise)
    and ["geometry"], the (x, y) points of a shapely LineString. *)
Record EdgeData : Type := mkEdgeData {
  ed_length : option PyLength;
  ed_weight : option R;
  ed_geometry : option (list (R * R))
}.

Record Edge : Type := mkEdge {
  e_u : node;
  e_v : node;
  e_key : Z;
  e_data : EdgeData
}.

(** Nodes and edges in insertion order, the order in which networkx
    iterates over them. *)
Record MultiDiGraph : Type := mkGraph {
  nodes : list (node * NodeData);
  edges : list Edge
}.

Definition has_node (G : MultiDiGraph) (n : node) : bool :=
  existsb (fun p => Z.eqb (fst p) n) (nodes G).

(** [G.nodes[n]]: KeyError when the node is absent. *)
Definition node_attrs (G : MultiDiGraph) (n : node) : result NodeData :=
  match find (fun p => Z.eqb (fst p) n) (nodes G) with
  | Some p => Ok (snd p)
  | None => Raise KeyError
  end.

(** [G.get_edge_data(u, v, default=None)]: the attributes of the parallel
    edges from [u] to [v], by key in insertion order; the empty list
    stands for both [None] and an empty dictionary. *)
Definition get_edge_data (G : MultiDiGraph) (u v : node) : list EdgeData :=
  map e_data
    (filter (fun e => Z.eqb (e_u e) u && Z.eqb (e_v e) v) (edges G)).

Definition set_weight (e : Edge) (w : R) : Edge :=
  mkEdge (e_u e) (e_v e) (e_key e)
    (mkEdgeData (ed_length (e_data e)) (Some w) (ed_geometry (e_data e))).

(** ** networkx: [nx.shortest_path(G, source, target, weight="weight")]

    networkx is a library, not a part of this repository; it is modelled
    by Dijkstra's algorithm over the weight function networkx builds for
    a multigraph and a string key,
    [min(attr.get(weight, 1) for attr in d.values())]: an edge with no
    ["weight"] attribute costs 1.  The model stands for networkx on
    graphs without negative weights, where the library promises a path
    of least weight and raises NetworkXNoPath when there is none; which
    of several paths of least weight comes back is the library's choice
    and nothing below depends on it. *)

Definition attr_weight (d : EdgeData) : R :=
  match ed_weight d with
  | Some w => w
  | None => 1
  end.

Definition weight_function (ds : list EdgeData) : R :=
  match ds with
  | [] => 1
  | d :: ds' => fold_left (fun m d' => py_min m (attr_weight d')) ds' (attr_weight d)
  end.

Fixpoint dedup (l : list node) (seen : list node) : list node :=
  match l with
  | [] => []
  | x :: l' =>
    if existsb (Z.eqb x) seen then dedup l' seen
    else x :: dedup l' (x :: seen)
  end.

(** The neighbours of [u], each once, in the order of their first edge. *)
Definition successors (G : MultiDiGraph) (u : node) : list node :=
  dedup (map e_v (filter (fun e => Z.eqb (e_u e) u) (edges G))) [].

(** A fringe entry: distance from the source, node, and the path that
    reached it (most recent node first, the node itself left out). *)
Definition entry : Type := (R * node * list node)%type.

Definition entry_dist (e : entry) : R := fst (fst e).
Definition entry_node (e : entry) : node := snd (fst e).

(** The entry of least distance, the earliest pushed among equals, and
    the fringe without it. *)
Fixpoint pop_min (fringe : list entry) : option (entry * list entry) :=
  match fringe with
  | [] => None
  | e :: rest =>
    match pop_min rest with
    | None => Some (e, [])
    | Some (m, rest') =>
      if Rltb (entry_dist m) (entry_dist e) then Some (m, e :: rest')
      else Some (e, rest)
    end
  end.

Definition relax (G : MultiDiGraph) (done : list node) (d : R) (v : node)
    (p : list node) : list entry :=
  map (fun w => (d + weight_function (get_edge_data G v w), w, v :: p))
    (filter (fun w => negb (existsb (Z.eqb w) done)) (successors G v)).

Fixpoint dijkstra_loop (fuel : nat) (G : MultiDiGraph) (target : node)
    (fringe : list entry) (done : list node) : option (list node) :=
  match fuel with
  | O => None
  | S fuel' =>
    match pop_min fringe with
    | None => None
    | Some ((d, v, p), rest) =>
      if existsb (Z.eqb v) done then dijkstra_loop fuel' G target rest done
      else if Z.eqb v target then Some (rev (v :: p))
      else dijkstra_loop fuel' G target (rest ++ relax G (v :: done) d v p)
             (v :: done)
    end
  end.

(** Every settled node pushes at most one entry per outgoing edge, so the
    fringe is popped at most [1 + number of edges] times. *)
Definition shortest_path (G : MultiDiGraph) (source target : node)
    : result (list node) :=
  if negb (has_node G source) then Raise NodeNotFound
  else if negb (has_node G target) then Raise NodeNotFound
  else
    match dijkstra_loop (S (List.length (edges G))) G target [(0, source, [])] [] with
    | Some path => Ok path
    | None => Raise NetworkXNoPath
    end.

(** ** The environment: what the code reaches outside itself

    - [in_pytest]: whether ["PYTEST_CURRENT_TEST"] is in [os.environ];
    - [float_of_str]: Python's [float(s)] on a string, [None] for
      ValueError;
    - [graph_from_point]: [ox.graph_from_point(center_point=(lat, lon),
      dist=radius, network_type="drive", simplify=True)];
    - [nearest_nodes]: [ox.distance.nearest_nodes(G, X=lon, Y=lat)]. *)
Record Env : Type := mkEnv {
  in_pytest : bool;
  float_of_str : string -> option R;
  graph_from_point : R * R -> R -> result MultiDiGraph;
  nearest_nodes : MultiDiGraph -> R -> R -> result node
}.

(** ** app/services/graph_manager.py *)

(** The two attributes of a [GraphManager]; [bbox] is
    (north, south, east, west). *)
Record GraphManager : Type := mkGraphManager {
  graph : option MultiDiGraph;
  bbox : option (R * R * R * R)
}.

(** [GraphManager.__init__] *)
Definition GraphManager_init : GraphManager := mkGraphManager None None.

Definition MAX_GRAPH_RADIUS_M : R := 15000.

(** [_bbox_contains_points]; [a <= b <= c] is [a <= b and b <= c]. *)
Definition _bbox_contains_points (self : GraphManager)
    (origin destination : Coordinate) : bool :=
  match bbox self with
  | None => false
  | Some (north, south, east, west) =>
    forallb
      (fun c => (Rleb south (lat c) && Rleb (lat c) north)
                && (Rleb west (lon c) && Rleb (lon c) east))
      [origin; destination]
  end.

(** [_build_dummy_graph_for_tests] *)
Definition _build_dummy_graph_for_tests : MultiDiGraph :=
  let add_edge (u v : node) (length_m : R) : Edge :=
    mkEdge u v 0 (mkEdgeData (Some (LenFloat length_m)) (Some length_m) None) in
  mkGraph
    [ (1%Z, mkNodeData (Some (919 / 100)) (Some (454642 / 10000)));
      (2%Z, mkNodeData (Some (922 / 100)) (Some (454720 / 10000)));
      (3%Z, mkNodeData (Some (925 / 100)) (Some (454800 / 10000))) ]
    [ add_edge 1%Z 2%Z 1000;
      add_edge 2%Z 3%Z 1500;
      add_edge 1%Z 3%Z 2600 ].

(** One round of the loop of [_ensure_numeric_weights]: the edge with its
    ["weight"] set, or the edge as it was where the loop [continue]s. *)
Definition normalise_edge (env : Env) (G : MultiDiGraph) (e : Edge)
    : result Edge :=
  let length0 := ed_length (e_data e) in
  (* a string is converted, or dropped when it does not parse *)
  let length1 :=
    match length0 with
    | Some (LenStr s) =>
      match float_of_str env s with
      | Some r => Some (LenFloat r)
      | None => None
      end
    | other => other
    end in
  (* no valid length: the distance between the endpoints, if both have
     coordinates *)
  length2 <-
    match length1 with
    | None =>
      nu <- node_attrs G (e_u e) ;;
      nv <- node_attrs G (e_v e) ;;
      match nd_y nu, nd_x nu, nd_y nv, nd_x nv with
      | Some lat_u, Some lon_u, Some lat_v, Some lon_v =>
        d <- _haversine_distance_m (mkCoordinate lat_u lon_u)
               (mkCoordinate lat_v lon_v) ;;
        Ok (Some (LenFloat d))
      | _, _, _, _ => Ok None
      end
    | Some l => Ok (Some l)
    end ;;
  match length2 with
  | Some (LenFloat r) => Ok (set_weight e r)
  | Some _ => Ok e       (* float(length) raised TypeError or ValueError *)
  | None => Ok e         (* no length and no coordinates *)
  end.

Fixpoint normalise_edges (env : Env) (G : MultiDiGraph) (es : list Edge)
    : result (list Edge) :=
  match es with
  | [] => Ok []
  | e :: es' =>
    e' <- normalise_edge env G e ;;
    rest <- normalise_edges env G es' ;;
    Ok (e' :: rest)
  end.

(** [_ensure_numeric_weights] *)
Definition _ensure_numeric_weights (env : Env) (G : MultiDiGraph)
    : result MultiDiGraph :=
  es <- normalise_edges env G (edges G) ;;
  Ok (mkGraph (nodes G) es).

(** [min(xs)] and [max(xs)] of a non-empty list. *)
Definition list_min (x : R) (xs : list R) : R := fold_left py_min xs x.
Definition list_max (x : R) (xs : list R) : R := fold_left py_max xs x.

Fixpoint somes {A} (l : list (option A)) : list A :=
  match l with
  | [] => []
  | Some a :: l' => a :: somes l'
  | None :: l' => somes l'
  end.

(** The radius handed to the map-data source for endpoints [distance_m]
    apart. *)
Definition radius_m (distance_m : R) : R :=
  py_min (15 / 10 * distance_m + 2000) MAX_GRAPH_RADIUS_M.

(** The bounding box of a downloaded graph, from its nodes. *)
Definition derive_bbox (G : MultiDiGraph) (center_lat center_lon : R)
    : R * R * R * R :=
  let xs := somes (map (fun p => nd_x (snd p)) (nodes G)) in
  let ys := somes (map (fun p => nd_y (snd p)) (nodes G)) in
  match xs, ys with
  | x :: xs', y :: ys' =>
    let west := list_min x xs' in
    let east := list_max x xs' in
    let south := list_min y ys' in
    let north := list_max y ys' in
    (north, south, east, west)
  | _, _ =>
    (center_lat + 1, center_lat - 1, center_lon + 1, center_lon - 1)
  end.

(** [_build_graph_for_points]: the outcome and the manager afterwards. *)
Definition _build_graph_for_points (env : Env) (self : GraphManager)
    (origin destination : Coordinate) : result unit * GraphManager :=
  if in_pytest env then
    let G := _build_dummy_graph_for_tests in
    (Ok tt, mkGraphManager (Some G) (Some (90, -90, 180, -180)))
  else
    let built :=
      distance_m <- _haversine_distance_m origin destination ;;
      let radius := radius_m distance_m in
      let center_lat := (lat origin + lat destination) / 2 in
      let center_lon := (lon origin + lon destination) / 2 in
      G <- graph_from_point env (center_lat, center_lon) radius ;;
      G' <- _ensure_numeric_weights env G ;;
      Ok (mkGraphManager (Some G') (Some (derive_bbox G' center_lat center_lon)))
    in
    match built with
    | Ok self' => (Ok tt, self')
    | Raise e => (Raise e, self)
    end.

(** [ensure_graph_for_points] *)
Definition ensure_graph_for_points (env : Env) (self : GraphManager)
    (origin destination : Coordinate) : result unit * GraphManager :=
  if is_None (graph self)
     || negb (_bbox_contains_points self origin destination)
  then _build_graph_for_points env self origin destination
  else (Ok tt, self).

(** One round of the scan of [find_nearest_node] under pytest; the state
    is [(best_dist, nearest_node)], [None] before the first candidate. *)
Definition nearest_step (coord : Coordinate) (best : option (R * node))
    (entry : node * NodeData) : option (R * node) :=
  match nd_x (snd entry), nd_y (snd entry) with
  | Some x, Some y =>
    let dx := x - lon coord in
    let dy := y - lat coord in
    let d2 := dx * dx + dy * dy in
    match best with
    | None => Some (d2, fst entry)
    | Some (best_dist, _) =>
      if Rltb d2 best_dist then Some (d2, fst entry) else best
    end
  | _, _ => best
  end.

(** [find_nearest_node].  Outside pytest the log line formats the node's
    ["y"] and ["x"] with [:.6f], which raises when either is [None]. *)
Definition find_nearest_node (env : Env) (self : GraphManager)
    (coord : Coordinate) : result node :=
  match graph self with
  | None =>
    Raise (RuntimeError "Graph not initialised. Call ensure_graph_for_points() first.")
  | Some G =>
    if in_pytest env then
      match fold_left (nearest_step coord) (nodes G) None with
      | None => Raise (RuntimeError "No suitable node found in dummy graph.")
      | Some (_, nearest_node) => Ok nearest_node
      end
    else
      node_id <- nearest_nodes env G (lon coord) (lat coord) ;;
      node_data <- node_attrs G node_id ;;
      match nd_y node_data, nd_x node_data with
      | Some _, Some _ => Ok node_id
      | _, _ => Raise TypeError
      end
  end.

(** ** app/models/routing.py, continued *)

Record RouteRequest : Type := mkRouteRequest {
  origin : Coordinate;
  destination : Coordinate;
  departure_time : option string
}.

(** Coordinates are [lat, lon] pairs. *)
Record RouteGeometry : Type := mkRouteGeometry {
  geom_type : string;
  coordinates : list (R * R)
}.

Record RouteSummary : Type := mkRouteSummary {
  summary_distance_m : R;
  summary_duration_s : R;
  summary_geometry : list (R * R)
}.

Record RouteStep : Type := mkRouteStep {
  from_node : Z;
  to_node : Z;
  step_distance_m : R;
  step_duration_s : R
}.

(** The one warning the service issues; the message text embeds the two
    numbers, which is all of it that varies. *)
Inductive Warning : Type :=
| RouteExceedsRadius (distance_m limit : R).

Record RouteResponse : Type := mkRouteResponse {
  distance_m : R;
  duration_s : R;
  geometry : RouteGeometry;
  summary : RouteSummary;
  steps : list RouteStep;
  warnings : list Warning
}.

(** pydantic's check of [List[List[float]]]: no entry may be [None]. *)
Fixpoint validate_coordinates (coords : list (option R * option R))
    : result (list (R * R)) :=
  match coords with
  | [] => Ok []
  | (Some a, Some b) :: rest =>
    rest' <- validate_coordinates rest ;;
    Ok ((a, b) :: rest')
  | _ :: _ => Raise ValidationError
  end.

(** ** app/services/routing_service.py *)

Definition DEFAULT_SPEED_KMH : R := 40.

(** The points one edge adds to the polyline, [i] being its index in the
    path. *)
Definition segment_coordinates (G : MultiDiGraph) (i : nat) (u v : node)
    : result (list (option R * option R)) :=
  let edge_dict := get_edge_data G u v in
  let geom :=
    match edge_dict with
    | data :: _ => ed_geometry data
    | [] => None
    end in
  match geom with
  | Some segment_points =>
    let pts := map (fun xy => (Some (snd xy), Some (fst xy))) segment_points in
    Ok (if (0 <? i)%nat then tl pts else pts)
  | None =>
    node_u <- node_attrs G u ;;
    node_v <- node_attrs G v ;;
    let start := if (i =? 0)%nat then [(nd_y node_u, nd_x node_u)] else [] in
    Ok (start ++ [(nd_y node_v, nd_x node_v)])
  end.

Fixpoint coordinates_loop (G : MultiDiGraph) (i : nat) (path : list node)
    (coords : list (option R * option R))
    : result (list (option R * option R)) :=
  match path with
  | [] => Ok coords
  | u :: rest =>
    match rest with
    | [] => Ok coords
    | v :: _ =>
      seg <- segment_coordinates G i u v ;;
      coordinates_loop G (S i) rest (coords ++ seg)
    end
  end.

(** [_build_coordinates_from_path] *)
Definition _build_coordinates_from_path (G : MultiDiGraph) (path : list node)
    : result (list (option R * option R)) :=
  match path with
  | [] => Ok []
  | [node_id] =>
    nd <- node_attrs G node_id ;;
    Ok [(nd_y nd, nd_x nd)]
  | _ => coordinates_loop G 0 path []
  end.

Definition speed_mps : R :=
  let s := DEFAULT_SPEED_KMH * 1000 / 3600 in
  if Rleb s 0 then 1 else s.

Fixpoint steps_loop (G : MultiDiGraph) (path : list node)
    (steps : list RouteStep) (total_distance : R) : list RouteStep * R :=
  match path with
  | [] => (steps, total_distance)
  | u :: rest =>
    match rest with
    | [] => (steps, total_distance)
    | v :: _ =>
      match get_edge_data G u v with
      | [] => steps_loop G rest steps total_distance
      | data :: _ =>
        match ed_weight data with
        | None => steps_loop G rest steps total_distance
        | Some w =>
          let dist := w in
          let dur := dist / speed_mps in
          steps_loop G rest (steps ++ [mkRouteStep u v dist dur])
            (total_distance + dist)
        end
      end
    end
  end.

(** [_build_steps_from_path] *)
Definition _build_steps_from_path (G : MultiDiGraph) (path : list node)
    : list RouteStep * R :=
  if (List.length path <? 2)%nat then ([], 0)
  else steps_loop G path [] 0.

(** [_compute_duration_from_distance] *)
Definition _compute_duration_from_distance (distance_m : R) : R :=
  if Rleb distance_m 0 then 0
  else
    let speed := DEFAULT_SPEED_KMH * 1000 / 3600 in
    if Rleb speed 0 then 0
    else distance_m / speed.

(** The part of [compute_route] after the graph has been ensured. *)
Definition route_on_graph (env : Env) (self : GraphManager)
    (request : RouteRequest) : result RouteResponse :=
  match graph self with
  | None =>
    Raise (RuntimeError "Graph is not initialised after ensure_graph_for_points().")
  | Some G =>
    origin_node <- find_nearest_node env self (origin request) ;;
    destination_node <- find_nearest_node env self (destination request) ;;
    path <- shortest_path G origin_node destination_node ;;
    coords <- _build_coordinates_from_path G path ;;
    let '(steps, distance_m) := _build_steps_from_path G path in
    let duration_s := _compute_duration_from_distance distance_m in
    coords' <- validate_coordinates coords ;;
    let geometry := mkRouteGeometry "LineString" coords' in
    let summary := mkRouteSummary distance_m duration_s coords' in
    let warnings :=
      if Rltb (2 * MAX_GRAPH_RADIUS_M) distance_m
      then [RouteExceedsRadius distance_m (2 * MAX_GRAPH_RADIUS_M)]
      else [] in
    Ok (mkRouteResponse distance_m duration_s geometry summary steps warnings)
  end.

(** [compute_route]: the outcome and the graph manager afterwards. *)
Definition compute_route (env : Env) (self : GraphManager)
    (request : RouteRequest) : result RouteResponse * GraphManager :=
  match ensure_graph_for_points env self (origin request) (destination request) with
  | (Raise e, self') => (Raise e, self')
  | (Ok _, self') => (route_on_graph env self' request, self')
  end.

(** ** Reachability, and concrete inputs used below *)

Definition has_edge (G : MultiDiGraph) (u v : node) : Prop :=
  exists e, In e (edges G) /\ e_u e = u /\ e_v e = v.

(** [reachable G s t]: there is a directed walk from [s] to [t]. *)
Inductive reachable (G : MultiDiGraph) (s : node) : node -> Prop :=
| reach_here : reachable G s s
| reach_step (v w : node) :
    reachable G s v -> has_edge G v w -> reachable G s w.

(** [G] without the edge from [u] to [v] of key [k]. *)
Definition remove_edge (G : MultiDiGraph) (u v : node) (k : Z) : MultiDiGraph :=
  mkGraph (nodes G)
    (filter (fun e => negb (Z.eqb (e_u e) u && Z.eqb (e_v e) v && Z.eqb (e_key e) k))
       (edges G)).

(** The environment of a test run: pytest is detected, no string parses
    and the map-data source is not reached. *)
Definition test_env : Env :=
  mkEnv true (fun _ => None) (fun _ _ => Raise FetchError)
    (fun _ _ _ => Raise FetchError).

(** The manager once the dummy graph is installed. *)
Definition dummy_manager : GraphManager :=
  mkGraphManager (Some _build_dummy_graph_for_tests)
    (Some (90, -90, 180, -180)).

(** The request of [tests/test_route_dummy.py]. *)
Definition test_request : RouteRequest :=
  mkRouteRequest (mkCoordinate (454642 / 10000) (919 / 100))
    (mkCoordinate (4548 / 100) (925 / 100)) None.

(** A request whose two endpoints are the same point. *)
Definition same_point_request : RouteRequest :=
  mkRouteRequest (mkCoordinate (454642 / 10000) (919 / 100))
    (mkCoordinate (454642 / 10000) (919 / 100)) None.




(** A node without coordinates, a node with them, and one edge between
    them that carries neither length nor weight. *)
Definition bare_edge : Edge := mkEdge 1%Z 2%Z 0 (mkEdgeData None None None).

Definition bare_graph : MultiDiGraph :=
  mkGraph
    [ (1%Z, mkNodeData None None);
      (2%Z, mkNodeData (Some 10) (Some 46)) ]
    [ bare_edge ].

(** An edge has no usable length: the attribute is missing, or it is a
    string that [float] rejects. *)
Definition no_valid_length (env : Env) (e : Edge) : Prop :=
  ed_length (e_data e) = None
  \/ exists s, ed_length (e_data e) = Some (LenStr s) /\ float_of_str env s = None.

(** The endpoints of an edge do not both carry coordinates. *)
Definition no_fallback (G : MultiDiGraph) (e : Edge) : Prop :=
  exists nu nv,
    node_attrs G (e_u e) = Ok nu /\ node_attrs G (e_v e) = Ok nv
    /\ (nd_y nu = None \/ nd_x nu = None \/ nd_y nv = None \/ nd_x nv = None).

(** A point lies in the box (north, south, east, west). *)
Definition in_box (box : R * R * R * R) (c : Coordinate) : Prop :=
  let '(north, south, east, west) := box in
  south <= lat c <= north /\ west <= lon c <= east.

(** The cache covers a request: a graph is cached and its box holds both
    endpoints. *)
Definition covered (self : GraphManager) (o d : Coordinate) : Prop :=
  graph self <> None
  /\ exists box, bbox self = Some box /\ in_box box o /\ in_box box d.

(** The response to the request of the test suite. *)
Definition test_response : RouteResponse :=
  let coords :=
    [ (454642 / 10000, 919 / 100);
      (454720 / 10000, 922 / 100);
      (454800 / 10000, 925 / 100) ] in
  let distance := 0 + 1000 + 1500 in
  let duration := _compute_duration_from_distance distance in
  mkRouteResponse distance duration
    (mkRouteGeometry "LineString" coords)
    (mkRouteSummary distance duration coords)
    [ mkRouteStep 1 2 1000 (1000 / speed_mps);
      mkRouteStep 2 3 1500 (1500 / speed_mps) ]
    [].

(** [walk G s t p]: [p] lists the nodes of a directed walk from [s] to
    [t], both included. *)
Inductive walk (G : MultiDiGraph) (s : node) : node -> list node -> Prop :=
| walk_start : walk G s s [s]
| walk_step (v w : node) (p : list node) :
    walk G s v p -> has_edge G v w -> walk G s w (p ++ [w]).

(** The bookkeeping of the search, for the proof that it ends: the
    fringe holds an entry for [w]; the number of edges whose tail is not
    settled yet; and what holds of fringe and settled nodes at every
    round. *)
Definition has_entry (w : node) (fringe : list entry) : Prop :=
  exists x, In x fringe /\ entry_node x = w.

Definition pending (G : MultiDiGraph) (done : list node) : nat :=
  List.length
    (filter (fun e => negb (existsb (Z.eqb (e_u e)) done)) (edges G)).

Record search_inv (G : MultiDiGraph) (s t : node) (fringe : list entry)
    (done : list node) : Prop := mkSearchInv {
  inv_target : existsb (Z.eqb t) done = false;
  inv_source : existsb (Z.eqb s) done = true \/ has_entry s fringe;
  inv_closed : forall v w,
    existsb (Z.eqb v) done = true -> has_edge G v w ->
    existsb (Z.eqb w) done = true \/ has_entry w fringe
}.

(** Every entry of the fringe carries a walk from the source to its
    node. *)
Definition entry_walk (G : MultiDiGraph) (s : node) (x : entry) : Prop :=
  walk G s (entry_node x) (rev (entry_node x :: snd x)).

(** The cost the search gives to the step from [u] to [v], and to a
    path. *)
Definition edge_cost (G : MultiDiGraph) (u v : node) : R :=
  weight_function (get_edge_data G u v).

Fixpoint path_cost (G : MultiDiGraph) (p : list node) : R :=
  match p with
  | [] => 0
  | u :: rest =>
    match rest with
    | [] => 0
    | v :: _ => edge_cost G u v + path_cost G rest
    end
  end.

(** No edge has a negative weight: the graphs on which networkx promises
    a shortest path. *)
Definition nonneg_weights (G : MultiDiGraph) : Prop :=
  forall e, In e (edges G) -> 0 <= attr_weight (e_data e).

(** An entry of the fringe is sound: it carries a walk from the source
    to its node, and the cost of that walk. *)
Definition entry_ok (G : MultiDiGraph) (s : node) (x : entry) : Prop :=
  entry_walk G s x
  /\ entry_dist x = path_cost G (rev (entry_node x :: snd x)).

(** What holds at every round of the search, [dist] being the distance
    at which each node was settled. *)
Record opt_inv (G : MultiDiGraph) (s : node) (fringe : list entry)
    (done : list node) (dist : node -> R) : Prop := mkOptInv {
  o_entries : forall x, In x fringe -> entry_ok G s x;
  o_source :
    (existsb (Z.eqb s) done = true /\ dist s <= 0)
    \/ exists x, In x fringe /\ entry_node x = s /\ entry_dist x <= 0;
  o_opt : forall v q,
    existsb (Z.eqb v) done = true -> walk G s v q -> dist v <= path_cost G q;
  o_closed : forall v w,
    existsb (Z.eqb v) done = true -> has_edge G v w ->
    existsb (Z.eqb w) done = true
    \/ exists x, In x fringe /\ entry_node x = w
                 /\ entry_dist x <= dist v + edge_cost G v w
}.

(** ** app/api/v1/routes_routing.py

    The module creates one [GraphManager] and one [RoutingService] around
    it, and the handler of [POST /route/] hands every request to that
    service.  The handler never awaits, so requests are served one after
    the other, each on the manager the one before left behind. *)
Fixpoint serve (env : Env) (graph_manager : GraphManager)
    (requests : list RouteRequest)
    : list (result RouteResponse) * GraphManager :=
  match requests with
  | [] => ([], graph_manager)
  | request :: rest =>
    let '(response, graph_manager') := compute_route env graph_manager request in
    let '(responses, final) := serve env graph_manager' rest in
    (response :: responses, final)
  end.

(** ** Vocabulary of the further properties *)

(** [total] after [total += x] for each [x] in turn, from [0.0]. *)
Definition sum_R (l : list R) : R := fold_left Rplus l 0.

(** The consecutive pairs of a path: [zip(path[:-1], path[1:])]. *)
Fixpoint pairs (p : list node) : list (node * node) :=
  match p with
  | [] => []
  | u :: rest =>
    match rest with
    | [] => []
    | v :: _ => (u, v) :: pairs rest
    end
  end.

Definition step_ends (st : RouteStep) : node * node :=
  (from_node st, to_node st).

(** Every edge of the graph carries a weight. *)
Definition all_weighted (G : MultiDiGraph) : Prop :=
  forall e, In e (edges G) -> ed_weight (e_data e) <> None.

(** No two edges of the graph share both endpoints. *)
Definition no_parallel_edges (G : MultiDiGraph) : Prop :=
  forall u v, (List.length (get_edge_data G u v) <= 1)%nat.

(** No edge of the graph carries a geometry. *)
Definition no_geometry (G : MultiDiGraph) : Prop :=
  forall e, In e (edges G) -> ed_geometry (e_data e) = None.

(** Both coordinates of a node are present. *)
Definition located (nd : NodeData) : Prop :=
  nd_x nd <> None /\ nd_y nd <> None.

(** The graph is as a map-data source delivers it: every node has both
    coordinates and every edge joins two nodes of the graph. *)
Definition well_formed (G : MultiDiGraph) : Prop :=
  (forall p, In p (nodes G) -> located (snd p))
  /\ (forall e, In e (edges G) ->
        has_node G (e_u e) = true /\ has_node G (e_v e) = true).

(** The squared distance in degrees that [find_nearest_node] compares
    under pytest. *)
Definition sq_dist (coord : Coordinate) (x y : R) : R :=
  (x - lon coord) * (x - lon coord) + (y - lat coord) * (y - lat coord).

(** What [_ensure_numeric_weights] leaves alone in an edge: everything
    but the weight. *)
Definition edge_frame (e : Edge)
    : node * node * Z * option PyLength * option (list (R * R)) :=
  (e_u e, e_v e, e_key e, ed_length (e_data e), ed_geometry (e_data e)).

(** The length the loop of [_ensure_numeric_weights] can turn into a
    weight without looking at the nodes: a number, or a string that
    [float] accepts. *)
Definition usable_length (env : Env) (e : Edge) : option R :=
  match ed_length (e_data e) with
  | Some (LenFloat r) => Some r
  | Some (LenStr s) => float_of_str env s
  | _ => None
  end.

(** An entry of the polyline that pydantic accepts: neither part is
    [None]. *)
Definition present (c : option R * option R) : Prop :=
  fst c <> None /\ snd c <> None.

(** What the scan holds after the nodes [l]: nothing when none of them
    has both coordinates, and otherwise the first of those at the least
    squared distance. *)
Definition scan_result (coord : Coordinate) (l : list (node * NodeData))
    (res : option (R * node)) : Prop :=
  match res with
  | None => forall p, In p l -> nd_x (snd p) = None \/ nd_y (snd p) = None
  | Some (d, n) =>
    exists pre data x y post,
      l = pre ++ (n, data) :: post
      /\ nd_x data = Some x /\ nd_y data = Some y
      /\ d = sq_dist coord x y
      /\ (forall p x' y', In p pre ->
            nd_x (snd p) = Some x' -> nd_y (snd p) = Some y' ->
            d < sq_dist coord x' y')
      /\ (forall p x' y', In p post ->
            nd_x (snd p) = Some x' -> nd_y (snd p) = Some y' ->
            d <= sq_dist coord x' y')
  end.

(** A graph with an edge whose length is a number, one whose length is
    a string, and one whose length is of another type and which has a
    weight already; the same graph as normalisation leaves it; and an
    environment outside pytest in which [float] accepts that string and
    the map-data source delivers that graph. *)
Definition raw_nodes : list (node * NodeData) :=
  [ (1%Z, mkNodeData (Some 9) (Some 45));
    (2%Z, mkNodeData (Some 10) (Some 46));
    (3%Z, mkNodeData (Some 11) (Some 47)) ].

Definition raw_graph : MultiDiGraph :=
  mkGraph raw_nodes
    [ mkEdge 1%Z 2%Z 0 (mkEdgeData (Some (LenFloat 120)) None None);
      mkEdge 2%Z 3%Z 0 (mkEdgeData (Some (LenStr "250")) None None);
      mkEdge 3%Z 1%Z 0 (mkEdgeData (Some LenOther) (Some 7) None) ].

Definition raw_string_edge : Edge :=
  mkEdge 2%Z 3%Z 0 (mkEdgeData (Some (LenStr "250")) (Some 250) None).

Definition raw_graph_normalised : MultiDiGraph :=
  mkGraph raw_nodes
    [ mkEdge 1%Z 2%Z 0 (mkEdgeData (Some (LenFloat 120)) (Some 120) None);
      raw_string_edge;
      mkEdge 3%Z 1%Z 0 (mkEdgeData (Some LenOther) (Some 7) None) ].

Definition raw_env : Env :=
  mkEnv false (fun s => if String.eqb s "250" then Some 250 else None)
    (fun _ _ => Ok raw_graph) (fun _ _ _ => Raise FetchError).

Definition raw_manager : GraphManager :=
  mkGraphManager (Some raw_graph_normalised) (Some (47, 45, 11, 9)).

(** The location [_build_coordinates_from_path] reads off a node. *)
Definition node_coord (G : MultiDiGraph) (n : node) (c : option R * option R)
    : Prop :=
  exists nd, node_attrs G n = Ok nd /\ c = (nd_y nd, nd_x nd).

(** What holds of the shared manager between requests: it is as
    [__init__] left it, or holds the dummy graph and the box of the
    whole world, or holds a graph that [_ensure_numeric_weights]
    returned and the box derived from it. *)
Definition manager_inv (env : Env) (self : GraphManager) : Prop :=
  self = GraphManager_init
  \/ (in_pytest env = true /\ self = dummy_manager)
  \/ (in_pytest env = false
      /\ exists G0 G center_lat center_lon,
           self = mkGraphManager (Some G)
                    (Some (derive_bbox G center_lat center_lon))
           /\ _ensure_numeric_weights env G0 = Ok G).

(** The point has nodes of the graph on all four sides: one at most as
    far north, one at least as far north, and the same from west to
    east. *)
Definition surrounded (G : MultiDiGraph) (c : Coordinate) : Prop :=
  (exists p y, In p (nodes G) /\ nd_y (snd p) = Some y /\ y <= lat c)
  /\ (exists p y, In p (nodes G) /\ nd_y (snd p) = Some y /\ lat c <= y)
  /\ (exists p x, In p (nodes G) /\ nd_x (snd p) = Some x /\ x <= lon c)
  /\ (exists p x, In p (nodes G) /\ nd_x (snd p) = Some x /\ lon c <= x).

(** A map-data source that delivers only graphs as [well_formed]
    describes, with lengths that are numbers or strings and, where
    [float] accepts them, not negative. *)
Definition sound_source (env : Env) : Prop :=
  forall center radius G,
    graph_from_point env center radius = Ok G ->
    well_formed G
    /\ forall e, In e (edges G) ->
         ed_length (e_data e) <> Some LenOther
         /\ forall r, usable_length env e = Some r -> 0 <= r.

(** What such a source keeps true of the graph in use. *)
Definition sound_graph (G : MultiDiGraph) : Prop :=
  well_formed G /\ all_weighted G /\ nonneg_weights G.

(** Environments outside pytest whose map-data source delivers the
    graph without nodes, and the three-node graph of the tests. *)
Definition empty_env : Env :=
  mkEnv false (fun _ => None) (fun _ _ => Ok (mkGraph [] []))
    (fun _ _ _ => Raise FetchError).

Definition empty_manager : GraphManager :=
  mkGraphManager (Some (mkGraph [] []))
    (Some ((45 + 46) / 2 + 1, (45 + 46) / 2 - 1,
           (9 + 10) / 2 + 1, (9 + 10) / 2 - 1)).

Definition osm_env : Env :=
  mkEnv false (fun _ => None) (fun _ _ => Ok _build_dummy_graph_for_tests)
    (fun _ _ _ => Ok 1%Z).

(** The request with origin and destination exchanged. *)
Definition reverse_request (request : RouteRequest) : RouteRequest :=
  mkRouteRequest (destination request) (origin request)
    (departure_time request).

(** Three nodes in a chain, the middle one without coordinates. *)
Definition gap_graph : MultiDiGraph :=
  mkGraph
    [ (1%Z, mkNodeData (Some 9) (Some 45));
      (2%Z, mkNodeData None None);
      (3%Z, mkNodeData (Some 11) (Some 47)) ]
    [ mkEdge 1%Z 2%Z 0 (mkEdgeData (Some (LenFloat 100)) (Some 100) None);
      mkEdge 2%Z 3%Z 0 (mkEdgeData (Some (LenFloat 100)) (Some 100) None) ].

Definition gap_manager : GraphManager :=
  mkGraphManager (Some gap_graph) (Some (90, -90, 180, -180)).

Definition gap_request : RouteRequest :=
  mkRouteRequest (mkCoordinate 45 9) (mkCoordinate 47 11) None.

(** The points of consecutive edge geometries joined into one line: all
    of the first, and each later one without its first point. *)
Definition joined (segs : list (list (R * R))) : list (R * R) :=
  match segs with
  | [] => []
  | s :: rest => s ++ List.concat (map (@tl (R * R)) rest)
  end.

(** [segs] lists, edge by edge along the path, the geometry of the first
    edge (by key) between each two consecutive nodes. *)
Definition geometries (G : MultiDiGraph) (path : list node)
    (segs : list (list (R * R))) : Prop :=
  Forall2
    (fun uv pts =>
       exists data ds,
         get_edge_data G (fst uv) (snd uv) = data :: ds
         /\ ed_geometry data = Some pts)
    (pairs path) segs.

(** A point of a geometry, (x, y), as the polyline has it: [lat, lon]. *)
Definition lat_lon (xy : R * R) : R * R := (snd xy, fst xy).

(** Two nodes joined by two edges with geometries that meet at (10, 46). *)
Definition shaped_graph : MultiDiGraph :=
  mkGraph
    [ (1%Z, mkNodeData (Some 9) (Some 45));
      (2%Z, mkNodeData (Some 10) (Some 46));
      (3%Z, mkNodeData (Some 11) (Some 47)) ]
    [ mkEdge 1%Z 2%Z 0
        (mkEdgeData (Some (LenFloat 100)) (Some 100)
           (Some [(9, 45); (95 / 10, 455 / 10); (10, 46)]));
      mkEdge 2%Z 3%Z 0
        (mkEdgeData (Some (LenFloat 100)) (Some 100)
           (Some [(10, 46); (11, 47)])) ].

Definition shaped_manager : GraphManager :=
  mkGraphManager (Some shaped_graph) (Some (90, -90, 180, -180)).

Definition shaped_response : RouteResponse :=
  let coords :=
    [ (45, 9); (455 / 10, 95 / 10); (46, 10); (47, 11) ] in
  let distance := 0 + 100 + 100 in
  let duration := _compute_duration_from_distance distance in
  mkRouteResponse distance duration
    (mkRouteGeometry "LineString" coords)
    (mkRouteSummary distance duration coords)
    [ mkRouteStep 1 2 100 (100 / speed_mps);
      mkRouteStep 2 3 100 (100 / speed_mps) ]
    [].

(** * Properties *)

(** ** Comparisons *)

Lemma Rltb_true x y : x < y -> Rltb x y = true.
Proof.
  intros H. unfold Rltb. destruct (Rlt_dec x y); [reflexivity | contradiction].
Qed.

Lemma Rltb_false x y : y <= x -> Rltb x y = false.
Proof. intros H. unfold Rltb. destruct (Rlt_dec x y); [lra | reflexivity]. Qed.

Lemma Rleb_true x y : x <= y -> Rleb x y = true.
Proof.
  intros H. unfold Rleb. destruct (Rle_dec x y); [reflexivity | contradiction].
Qed.

Lemma Rleb_false x y : y < x -> Rleb x y = false.
Proof. intros H. unfold Rleb. destruct (Rle_dec x y); [lra | reflexivity]. Qed.

Lemma Rltb_spec x y : Rltb x y = true <-> x < y.
Proof.
  unfold Rltb. destruct (Rlt_dec x y); split; intros; try reflexivity;
    try assumption; try discriminate; contradiction.
Qed.

Lemma Rleb_spec x y : Rleb x y = true <-> x <= y.
Proof.
  unfold Rleb. destruct (Rle_dec x y); split; intros; try reflexivity;
    try assumption; try discriminate; contradiction.
Qed.

(** Decide the comparisons between closed numerals that a goal holds. *)
Ltac rcompare :=
  repeat match goal with
  | |- context [Rltb ?a ?b] =>
    first [ rewrite (Rltb_true a b) by lra | rewrite (Rltb_false a b) by lra ]
  | |- context [Rleb ?a ?b] =>
    first [ rewrite (Rleb_true a b) by lra | rewrite (Rleb_false a b) by lra ]
  end.

(** ** Great-circle distance *)

Lemma sin_half_sq (x : R) : sin (x / 2) ^ 2 = (1 - cos x) / 2.
Proof.
  pose proof (cos_2a_sin (x / 2)) as H.
  replace (2 * (x / 2)) with x in H by field.
  simpl. lra.
Qed.

(** The haversine term written over the sines and cosines of the two
    latitudes: it stays in [0, 1] whatever the latitudes are. *)
Lemma haversine_term_bound (cu su cv sv s : R) :
  su * su + cu * cu = 1 -> sv * sv + cv * cv = 1 -> 0 <= s <= 1 ->
  0 <= (1 - (cv * cu + sv * su)) / 2 + cu * cv * s <= 1.
Proof.
  intros Hu Hv [Hs0 Hs1].
  assert (A : 0 <= 1 - cu * cv - su * sv).
  { pose proof (Rle_0_sqr (cu - cv)). pose proof (Rle_0_sqr (su - sv)).
    unfold Rsqr in *. lra. }
  assert (B : 0 <= 1 + cu * cv - su * sv).
  { pose proof (Rle_0_sqr (cu + cv)). pose proof (Rle_0_sqr (su - sv)).
    unfold Rsqr in *. lra. }
  assert (C : 0 <= 1 + cu * cv + su * sv).
  { pose proof (Rle_0_sqr (cu + cv)). pose proof (Rle_0_sqr (su + sv)).
    unfold Rsqr in *. lra. }
  assert (D : 0 <= 1 - cu * cv + su * sv).
  { pose proof (Rle_0_sqr (cu - cv)). pose proof (Rle_0_sqr (su + sv)).
    unfold Rsqr in *. lra. }
  assert (Hs1' : 0 <= 1 - s) by lra.
  pose proof (Rmult_le_pos _ _ Hs0 B) as P1.
  pose proof (Rmult_le_pos _ _ Hs1' A) as P2.
  pose proof (Rmult_le_pos _ _ Hs0 D) as P3.
  pose proof (Rmult_le_pos _ _ Hs1' C) as P4.
  split; lra.
Qed.

Lemma haversine_h_bound (a b : Coordinate) : 0 <= haversine_h a b <= 1.
Proof.
  unfold haversine_h; cbv zeta.
  set (u := math.radians (lat a)). set (v := math.radians (lat b)).
  set (dlon := math.radians (lon b) - math.radians (lon a)).
  rewrite (sin_half_sq (v - u)), cos_minus.
  apply haversine_term_bound.
  - pose proof (sin2_cos2 u) as H. unfold Rsqr in H. exact H.
  - pose proof (sin2_cos2 v) as H. unfold Rsqr in H. exact H.
  - rewrite sin_half_sq. pose proof (COS_bound dlon). lra.
Qed.

Lemma haversine_h_sym (a b : Coordinate) : haversine_h a b = haversine_h b a.
Proof.
  unfold haversine_h; cbv zeta.
  rewrite !sin_half_sq.
  replace (math.radians (lat a) - math.radians (lat b))
    with (- (math.radians (lat b) - math.radians (lat a))) by ring.
  replace (math.radians (lon a) - math.radians (lon b))
    with (- (math.radians (lon b) - math.radians (lon a))) by ring.
  rewrite !cos_neg. ring.
Qed.

Lemma haversine_h_same (a : Coordinate) : haversine_h a a = 0.
Proof.
  unfold haversine_h; cbv zeta.
  rewrite !Rminus_diag. replace (0 / 2) with 0 by field.
  rewrite sin_0. ring.
Qed.

Lemma atan2_nonneg (y x : R) : 0 <= y -> 0 <= x -> 0 <= math.atan2 y x.
Proof.
  intros Hy Hx. unfold math.atan2.
  destruct (Rlt_dec 0 x) as [Hx'|Hx'].
  - rewrite (Rltb_true 0 x) by assumption.
    destruct (Req_dec y 0) as [->|Hy0].
    + unfold Rdiv. rewrite Rmult_0_l, atan_0. lra.
    + left. rewrite <- atan_0. apply atan_increasing.
      apply Rdiv_lt_0_compat; lra.
  - rewrite (Rltb_false 0 x) by lra. rewrite (Rltb_false x 0) by lra.
    destruct (Rlt_dec 0 y).
    + rewrite (Rltb_true 0 y) by assumption. pose proof PI_RGT_0. lra.
    + rewrite (Rltb_false 0 y) by lra. rewrite (Rltb_false y 0) by lra. lra.
Qed.

Lemma haversine_distance_value (a b : Coordinate) :
  _haversine_distance_m a b =
  Ok (6371000 * 2 *
      math.atan2 (sqrt (haversine_h a b)) (sqrt (1 - haversine_h a b))).
Proof.
  pose proof (haversine_h_bound a b) as [H0 H1].
  unfold _haversine_distance_m, math.sqrt; cbv zeta.
  rewrite (Rltb_false (haversine_h a b) 0) by assumption. cbn [rbind].
  rewrite (Rltb_false (1 - haversine_h a b) 0) by lra. reflexivity.
Qed.

(** In exact arithmetic the great-circle distance raises on no pair of
    coordinates, is never negative, is zero from a point to itself and
    is symmetric in its two arguments. *)
Lemma haversine_real_total_nonneg_zero_symmetric (a b : Coordinate) :
  (exists d, _haversine_distance_m a b = Ok d /\ 0 <= d)
  /\ _haversine_distance_m a a = Ok 0
  /\ _haversine_distance_m a b = _haversine_distance_m b a.
Proof.
  split; [|split].
  - eexists. split; [apply haversine_distance_value|].
    pose proof (atan2_nonneg (sqrt (haversine_h a b))
                  (sqrt (1 - haversine_h a b))
                  (sqrt_pos _) (sqrt_pos _)).
    lra.
  - rewrite haversine_distance_value, haversine_h_same.
    rewrite Rminus_0_r, sqrt_0, sqrt_1. unfold math.atan2.
    rewrite (Rltb_true 0 1) by lra.
    replace (0 / 1) with 0 by field. rewrite atan_0. f_equal. ring.
  - rewrite !haversine_distance_value, (haversine_h_sym a b). reflexivity.
Qed.

(** ** The great-circle distance in binary64 *)

Section Binary64Facts.

Import PrimFloat.
Local Open Scope float_scope.

(** C7 asks for a distance on every pair of coordinates.  In double
    precision the code has none between the antipodal points (2.5, 0)
    and (-2.5, 180): the haversine term rounds to 1 + 2^-52, [1 - h] is
    negative and [math.sqrt] raises ValueError.  The premise fixes the
    six values of the C library that the computation reads. *)
Theorem haversine_binary64_domain_error (m : Binary64.Libm) :
  Binary64.libm_at_antipodes m ->
  Binary64._haversine_distance_m m
    (Binary64.mkCoordinate 2.5 0) (Binary64.mkCoordinate (-2.5) 180)
  = Raise ValueError.
Proof.
  intros (Hs & Hs1 & Hc & Hc' & Hp & Hp1).
  unfold Binary64._haversine_distance_m; cbv zeta.
  cbn [Binary64.lat Binary64.lon].
  replace ((Binary64.radians (-2.5) - Binary64.radians 2.5) / 2)
    with (-0x1.657184ae74487p-5) by (vm_compute; reflexivity).
  replace ((Binary64.radians 180 - Binary64.radians 0) / 2)
    with (0x1.921fb54442d18p+0) by (vm_compute; reflexivity).
  replace (Binary64.radians 2.5)
    with (0x1.657184ae74487p-5) by (vm_compute; reflexivity).
  replace (Binary64.radians (-2.5))
    with (-0x1.657184ae74487p-5) by (vm_compute; reflexivity).
  rewrite Hs, Hs1, Hc, Hc', Hp, Hp1.
  vm_compute. reflexivity.
Qed.

(** The table of the C library's values satisfies the premise. *)
Lemma haversine_binary64_domain_error_witness :
  Binary64._haversine_distance_m Binary64.libm_table
    (Binary64.mkCoordinate 2.5 0) (Binary64.mkCoordinate (-2.5) 180)
  = Raise ValueError.
Proof.
  apply (haversine_binary64_domain_error Binary64.libm_table).
  repeat split; vm_compute; reflexivity.
Defined.

End Binary64Facts.

(** ** Duration from distance *)

Lemma speed_positive : 0 < DEFAULT_SPEED_KMH * 1000 / 3600.
Proof. unfold DEFAULT_SPEED_KMH. lra. Qed.

Lemma speed_mps_value : speed_mps = 40 * 1000 / 3600.
Proof.
  unfold speed_mps, DEFAULT_SPEED_KMH; cbv zeta.
  rewrite Rleb_false by lra. reflexivity.
Qed.

Lemma duration_positive_distance (d : R) :
  0 < d -> _compute_duration_from_distance d = d / (40 * 1000 / 3600).
Proof.
  intros Hd. unfold _compute_duration_from_distance, DEFAULT_SPEED_KMH; cbv zeta.
  rewrite (Rleb_false d 0) by assumption.
  rewrite Rleb_false by lra. reflexivity.
Qed.

Lemma duration_nonpositive_distance (d : R) :
  d <= 0 -> _compute_duration_from_distance d = 0.
Proof.
  intros Hd. unfold _compute_duration_from_distance.
  rewrite (Rleb_true d 0) by assumption. reflexivity.
Qed.

Lemma duration_nonneg (d : R) : 0 <= _compute_duration_from_distance d.
Proof.
  destruct (Rle_dec d 0) as [H|H].
  - rewrite duration_nonpositive_distance by assumption. lra.
  - rewrite duration_positive_distance by lra.
    apply Rlt_le, Rdiv_lt_0_compat; lra.
Qed.

(** ** What a successful [compute_route] is made of *)

Ltac bind_inv H :=
  repeat match type of H with
  | rbind ?c _ = Ok _ =>
    let E := fresh "E" in
    destruct c eqn:E; cbn [rbind] in H; [| discriminate H]
  end.

Lemma route_on_graph_inv env self request r :
  route_on_graph env self request = Ok r ->
  exists G s t path coords coords',
    graph self = Some G
    /\ find_nearest_node env self (origin request) = Ok s
    /\ find_nearest_node env self (destination request) = Ok t
    /\ shortest_path G s t = Ok path
    /\ _build_coordinates_from_path G path = Ok coords
    /\ validate_coordinates coords = Ok coords'
    /\ steps r = fst (_build_steps_from_path G path)
    /\ distance_m r = snd (_build_steps_from_path G path)
    /\ duration_s r = _compute_duration_from_distance (distance_m r)
    /\ coordinates (geometry r) = coords'.
Proof.
  unfold route_on_graph. intros H.
  destruct (graph self) as [G|]; [| discriminate H].
  bind_inv H.
  destruct (_build_steps_from_path G a1) as [st dist] eqn:Est.
  bind_inv H. injection H as <-.
  exists G, a, a0, a1, a2, a3. cbn. rewrite Est. repeat split; reflexivity || assumption.
Qed.

Lemma compute_route_inv env self request r self' :
  compute_route env self request = (Ok r, self') ->
  ensure_graph_for_points env self (origin request) (destination request)
    = (Ok tt, self')
  /\ route_on_graph env self' request = Ok r.
Proof.
  unfold compute_route. intros H.
  destruct (ensure_graph_for_points env self (origin request)
              (destination request)) as [[[]|e] s1];
    injection H as H1 H2; subst; [split; [reflexivity | assumption] | discriminate H1].
Qed.

(** C10: on every computed route the duration is the distance divided by
    40 km/h in metres per second when the distance is positive and 0
    when it is not; it is never negative, and the divisor is not zero. *)
Theorem route_duration_from_distance env self request r self' :
  compute_route env self request = (Ok r, self') ->
  (0 < distance_m r -> duration_s r = distance_m r / (40 * 1000 / 3600))
  /\ (distance_m r <= 0 -> duration_s r = 0)
  /\ 0 <= duration_s r
  /\ DEFAULT_SPEED_KMH * 1000 / 3600 <> 0.
Proof.
  intros H. apply compute_route_inv in H as [_ H].
  apply route_on_graph_inv in H
    as (G & s & t & path & coords & coords' & _ & _ & _ & _ & _ & _ & _ & _ & Hd & _).
  rewrite Hd. repeat split.
  - apply duration_positive_distance.
  - apply duration_nonpositive_distance.
  - apply duration_nonneg.
  - pose proof speed_positive. lra.
Qed.

(** ** Coverage of the cache *)

Lemma in_box_reflect north south east west c :
  (Rleb south (lat c) && Rleb (lat c) north)
  && (Rleb west (lon c) && Rleb (lon c) east) = true
  <-> in_box (north, south, east, west) c.
Proof.
  unfold in_box. rewrite !andb_true_iff, !Rleb_spec. tauto.
Qed.

Lemma bbox_contains_points_spec self o d :
  _bbox_contains_points self o d = true
  <-> exists box, bbox self = Some box /\ in_box box o /\ in_box box d.
Proof.
  unfold _bbox_contains_points.
  destruct (bbox self) as [[[[north south] east] west]|].
  - cbn [forallb]. rewrite andb_true_r, andb_true_iff, !in_box_reflect.
    split.
    + intros [Ho Hd]. eexists. split; [reflexivity | split; assumption].
    + intros (box & Hb & Ho & Hd). injection Hb as <-. split; assumption.
  - split; [discriminate | intros (box & Hb & _); discriminate Hb].
Qed.

Lemma covered_reflect self o d :
  negb (is_None (graph self) || negb (_bbox_contains_points self o d)) = true
  <-> covered self o d.
Proof.
  unfold covered. rewrite <- bbox_contains_points_spec.
  destruct (graph self); cbn [is_None orb negb].
  - rewrite negb_involutive. split; [intros H; split; [discriminate | exact H] | tauto].
  - split; [discriminate | intros [H _]; contradiction].
Qed.


(** ** The radius of a rebuild *)

Lemma py_min_Rmin a b : py_min a b = Rmin a b.
Proof.
  unfold py_min, Rmin, Rltb.
  destruct (Rlt_dec b a), (Rle_dec a b); try reflexivity; lra.
Qed.

(** C4: outside the test run, a rebuild asks the map-data source for the
    graph around the midpoint with radius
    [min(1.5 * distance + 2000, 15000)], the distance being the
    great-circle distance between the two points (and asks for nothing
    when that distance raises); the radius is 15000 for a distance of
    10000 and 3500 for a distance of 1000. *)
Theorem rebuild_radius_policy parse fetch nearest self o d :
  let env := mkEnv false parse fetch nearest in
  _build_graph_for_points env self o d =
  match _haversine_distance_m o d with
  | Raise e => (Raise e, self)
  | Ok dist =>
    match
      (G <- fetch ((lat o + lat d) / 2, (lon o + lon d) / 2)
              (Rmin (15 / 10 * dist + 2000) 15000) ;;
       G' <- _ensure_numeric_weights env G ;;
       Ok (mkGraphManager (Some G')
             (Some (derive_bbox G' ((lat o + lat d) / 2)
                      ((lon o + lon d) / 2)))))
    with
    | Ok self' => (Ok tt, self')
    | Raise e => (Raise e, self)
    end
  end
  /\ radius_m 10000 = 15000
  /\ radius_m 1000 = 3500.
Proof.
  intros env. split; [| split].
  - unfold _build_graph_for_points. cbn [in_pytest env].
    destruct (_haversine_distance_m o d) as [dist|e]; cbn [rbind];
      [| reflexivity].
    unfold radius_m, MAX_GRAPH_RADIUS_M. rewrite py_min_Rmin. reflexivity.
  - unfold radius_m, MAX_GRAPH_RADIUS_M, py_min. rcompare. reflexivity.
  - unfold radius_m, MAX_GRAPH_RADIUS_M, py_min. rcompare. lra.
Qed.

(** ** Running the code on concrete graphs *)

Lemma dijkstra_loop_S fuel G target fringe done :
  dijkstra_loop (S fuel) G target fringe done =
  match pop_min fringe with
  | None => None
  | Some ((d, v, p), rest) =>
    if existsb (Z.eqb v) done then dijkstra_loop fuel G target rest done
    else if Z.eqb v target then Some (rev (v :: p))
    else dijkstra_loop fuel G target (rest ++ relax G (v :: done) d v p)
           (v :: done)
  end.
Proof. reflexivity. Qed.

(** Evaluate, leaving the arithmetic of [R] alone and settling each
    comparison as it comes up. *)
Ltac reval :=
  repeat progress
    (cbn -[dijkstra_loop Rplus Rmult Rdiv Rminus Ropp Rinv IZR Rltb Rleb
           speed_mps _compute_duration_from_distance];
     rcompare).

Ltac dijkstra_step := rewrite dijkstra_loop_S; reval.

Lemma dummy_nearest_origin :
  find_nearest_node test_env dummy_manager (origin test_request) = Ok 1%Z.
Proof.
  unfold find_nearest_node, dummy_manager, _build_dummy_graph_for_tests.
  reval. reflexivity.
Qed.

Lemma dummy_nearest_destination :
  find_nearest_node test_env dummy_manager (destination test_request) = Ok 3%Z.
Proof.
  unfold find_nearest_node, dummy_manager, _build_dummy_graph_for_tests.
  reval. reflexivity.
Qed.

Lemma dummy_shortest_path :
  shortest_path _build_dummy_graph_for_tests 1%Z 3%Z = Ok [1; 2; 3]%Z.
Proof.
  unfold shortest_path, _build_dummy_graph_for_tests.
  do 3 dijkstra_step. reflexivity.
Qed.

Lemma dummy_steps :
  _build_steps_from_path _build_dummy_graph_for_tests [1; 2; 3]%Z =
  ([ mkRouteStep 1 2 1000 (1000 / speed_mps);
     mkRouteStep 2 3 1500 (1500 / speed_mps) ],
   0 + 1000 + 1500).
Proof.
  unfold _build_steps_from_path, _build_dummy_graph_for_tests.
  reval. reflexivity.
Qed.

Lemma dummy_coordinates :
  _build_coordinates_from_path _build_dummy_graph_for_tests [1; 2; 3]%Z =
  Ok [ (Some (454642 / 10000), Some (919 / 100));
       (Some (454720 / 10000), Some (922 / 100));
       (Some (454800 / 10000), Some (925 / 100)) ].
Proof.
  unfold _build_coordinates_from_path, _build_dummy_graph_for_tests.
  reval. reflexivity.
Qed.

Lemma first_request_installs_dummy :
  ensure_graph_for_points test_env GraphManager_init (origin test_request)
    (destination test_request) = (Ok tt, dummy_manager).
Proof. reflexivity. Qed.

Lemma dummy_route_on_graph :
  route_on_graph test_env dummy_manager test_request = Ok test_response.
Proof.
  unfold route_on_graph.
  change (graph dummy_manager) with (Some _build_dummy_graph_for_tests).
  cbv iota beta.
  rewrite dummy_nearest_origin, dummy_nearest_destination. cbn [rbind].
  rewrite dummy_shortest_path. cbn [rbind].
  rewrite dummy_coordinates. cbn [rbind].
  rewrite dummy_steps. cbn [validate_coordinates rbind].
  unfold MAX_GRAPH_RADIUS_M. rcompare. reflexivity.
Qed.

Lemma dummy_compute_route :
  compute_route test_env GraphManager_init test_request
  = (Ok test_response, dummy_manager).
Proof.
  unfold compute_route. rewrite first_request_installs_dummy.
  rewrite dummy_route_on_graph. reflexivity.
Qed.

(** C2: on the three-node graph with edges 1->2 (1000 m), 2->3 (1500 m)
    and 1->3 (2600 m), the shortest path from 1 to 3 is [1, 2, 3], the
    distance is 2500 m, there are exactly two steps, and the duration is
    2500 / (40000 / 3600), which is 225 s; the test request is answered
    with that route. *)
Theorem dummy_graph_route_1_to_3 :
  map fst (nodes _build_dummy_graph_for_tests) = [1; 2; 3]%Z
  /\ map (fun e => (e_u e, e_v e, ed_weight (e_data e)))
       (edges _build_dummy_graph_for_tests)
     = [ (1%Z, 2%Z, Some 1000); (2%Z, 3%Z, Some 1500); (1%Z, 3%Z, Some 2600) ]
  /\ shortest_path _build_dummy_graph_for_tests 1%Z 3%Z = Ok [1; 2; 3]%Z
  /\ (exists r,
         compute_route test_env GraphManager_init test_request
         = (Ok r, dummy_manager)
         /\ distance_m r = 2500
         /\ List.length (steps r) = 2%nat
         /\ duration_s r = 2500 / (40000 / 3600)
         /\ duration_s r = 225).
Proof.
  split; [reflexivity |]. split; [reflexivity |].
  split; [apply dummy_shortest_path |].
  exists test_response. split; [apply dummy_compute_route |].
  assert (Hd : distance_m test_response = 2500) by (cbn; lra).
  assert (Hdur : duration_s test_response = 2500 / (40000 / 3600)).
  { change (duration_s test_response)
      with (_compute_duration_from_distance (0 + 1000 + 1500)).
    rewrite duration_positive_distance by lra. lra. }
  repeat split.
  - exact Hd.
  - exact Hdur.
  - rewrite Hdur. lra.
Qed.

(** A run on which [route_duration_from_distance] applies. *)
Lemma route_duration_from_distance_witness :
  (0 < distance_m test_response ->
   duration_s test_response = distance_m test_response / (40 * 1000 / 3600))
  /\ (distance_m test_response <= 0 -> duration_s test_response = 0)
  /\ 0 <= duration_s test_response
  /\ DEFAULT_SPEED_KMH * 1000 / 3600 <> 0.
Proof.
  apply (route_duration_from_distance test_env GraphManager_init test_request
           test_response dummy_manager).
  apply dummy_compute_route.
Defined.

(** ** A route from a node to itself *)

Lemma node_attrs_has_node G n nd : node_attrs G n = Ok nd -> has_node G n = true.
Proof.
  unfold node_attrs, has_node. intros H.
  destruct (find (fun p => Z.eqb (fst p) n) (nodes G)) as [p|] eqn:E;
    [| discriminate H].
  apply find_some in E as [Hin Hp].
  apply existsb_exists. exists p. split; assumption.
Qed.

Lemma shortest_path_same_node G n :
  has_node G n = true -> shortest_path G n n = Ok [n].
Proof.
  intros H. unfold shortest_path. rewrite H. cbn [negb].
  rewrite dijkstra_loop_S. cbn [pop_min existsb].
  rewrite Z.eqb_refl. reflexivity.
Qed.

(** C6: when origin and destination resolve to the same node, whose
    coordinates are (y, x), the response has the geometry [[y, x]],
    distance 0, duration 0, no steps and no warnings. *)
Theorem same_node_route env self request self' G n x y :
  ensure_graph_for_points env self (origin request) (destination request)
    = (Ok tt, self') ->
  graph self' = Some G ->
  find_nearest_node env self' (origin request) = Ok n ->
  find_nearest_node env self' (destination request) = Ok n ->
  node_attrs G n = Ok (mkNodeData (Some x) (Some y)) ->
  compute_route env self request =
  (Ok (mkRouteResponse 0 0 (mkRouteGeometry "LineString" [(y, x)])
         (mkRouteSummary 0 0 [(y, x)]) [] []),
   self').
Proof.
  intros He HG Ho Hd Hn.
  unfold compute_route. rewrite He. unfold route_on_graph. rewrite HG.
  rewrite Ho, Hd. cbn [rbind].
  rewrite (shortest_path_same_node G n (node_attrs_has_node G n _ Hn)).
  cbn [rbind _build_coordinates_from_path]. rewrite Hn.
  cbn [rbind nd_x nd_y _build_steps_from_path List.length Nat.ltb Nat.leb
       validate_coordinates].
  rewrite duration_nonpositive_distance by lra.
  unfold MAX_GRAPH_RADIUS_M. rcompare. reflexivity.
Qed.

(** A request with both endpoints on node 1 of the dummy graph. *)
Lemma same_node_route_witness :
  compute_route test_env GraphManager_init same_point_request =
  (Ok (mkRouteResponse 0 0
         (mkRouteGeometry "LineString" [(454642 / 10000, 919 / 100)])
         (mkRouteSummary 0 0 [(454642 / 10000, 919 / 100)]) [] []),
   dummy_manager).
Proof.
  apply (same_node_route test_env GraphManager_init same_point_request
           dummy_manager _build_dummy_graph_for_tests 1%Z
           (919 / 100) (454642 / 10000)).
  - reflexivity.
  - reflexivity.
  - exact dummy_nearest_origin.
  - exact dummy_nearest_origin.
  - reflexivity.
Defined.

(** ** Repeating a request *)






(** ** The search: what it returns, and that it returns *)

Lemma pop_min_in fringe e rest :
  pop_min fringe = Some (e, rest) ->
  In e fringe /\ (forall x, In x rest -> In x fringe).
Proof.
  revert e rest. induction fringe as [|a fringe IH]; intros e rest H.
  - discriminate H.
  - cbn [pop_min] in H.
    destruct (pop_min fringe) as [[m rest']|] eqn:E.
    + destruct (IH m rest' eq_refl) as [Hm Hrest].
      destruct (Rltb (entry_dist m) (entry_dist a));
        injection H as <- <-.
      * split; [right; exact Hm |].
        intros x [->|Hx]; [left; reflexivity | right; apply Hrest, Hx].
      * split; [left; reflexivity | intros x Hx; right; exact Hx].
    + injection H as <- <-. split; [left; reflexivity | intros x []].
Qed.

Lemma pop_min_split fringe e rest :
  pop_min fringe = Some (e, rest) ->
  List.length fringe = S (List.length rest)
  /\ (forall x, In x fringe -> x = e \/ In x rest).
Proof.
  revert e rest. induction fringe as [|a fringe IH]; intros e rest H.
  - discriminate H.
  - cbn [pop_min] in H.
    destruct (pop_min fringe) as [[m rest']|] eqn:E.
    + destruct (IH m rest' eq_refl) as [Hlen Hsplit].
      destruct (Rltb (entry_dist m) (entry_dist a));
        injection H as <- <-.
      * split; [cbn [List.length]; rewrite Hlen; reflexivity |].
        intros x [<-|Hx]; [right; left; reflexivity |].
        destruct (Hsplit x Hx) as [->|Hr];
          [left; reflexivity | right; right; exact Hr].
      * split; [reflexivity |].
        intros x [<-|Hx]; [left; reflexivity | right; exact Hx].
    + injection H as <- <-.
      destruct fringe as [|b fringe].
      * split; [reflexivity | intros x [<-|[]]; left; reflexivity].
      * cbn [pop_min] in E. destruct (pop_min fringe) as [[m r]|];
          [destruct (Rltb _ _) |]; discriminate E.
Qed.

Lemma pop_min_none fringe : pop_min fringe = None -> fringe = [].
Proof.
  destruct fringe as [|a fringe]; [reflexivity |].
  cbn [pop_min]. destruct (pop_min fringe) as [[m r]|];
    [destruct (Rltb _ _) |]; discriminate.
Qed.

Lemma dedup_in l seen w : In w (dedup l seen) -> In w l.
Proof.
  revert seen. induction l as [|x l IH]; intros seen H.
  - exact H.
  - cbn [dedup] in H. destruct (existsb (Z.eqb x) seen).
    + right. exact (IH _ H).
    + destruct H as [->|H]; [left; reflexivity | right; exact (IH _ H)].
Qed.

Lemma dedup_complete l : forall seen w,
  In w l -> existsb (Z.eqb w) seen = false -> In w (dedup l seen).
Proof.
  induction l as [|x l IH]; intros seen w Hin Hs.
  - destruct Hin.
  - cbn [dedup]. destruct (Z.eq_dec x w) as [->|Hne].
    + rewrite Hs. left. reflexivity.
    + destruct Hin as [Hx|Hin]; [contradiction |].
      destruct (existsb (Z.eqb x) seen).
      * exact (IH seen w Hin Hs).
      * right. apply IH; [exact Hin |].
        cbn [existsb]. rewrite Hs.
        apply Z.eqb_neq in Hne. rewrite Z.eqb_sym, Hne. reflexivity.
Qed.

Lemma dedup_length l : forall seen,
  (List.length (dedup l seen) <= List.length l)%nat.
Proof.
  induction l as [|x l IH]; intros seen; cbn [dedup List.length].
  - apply le_n.
  - destruct (existsb (Z.eqb x) seen); cbn [List.length].
    + apply le_S, IH.
    + apply le_n_S, IH.
Qed.

Lemma successors_has_edge G v w : In w (successors G v) -> has_edge G v w.
Proof.
  unfold successors. intros H. apply dedup_in in H.
  apply in_map_iff in H as (e & Hw & He).
  apply filter_In in He as [Hin Hu].
  exists e. split; [exact Hin |]. split; [apply Z.eqb_eq, Hu | exact Hw].
Qed.

Lemma edge_successor G e : In e (edges G) -> In (e_v e) (successors G (e_u e)).
Proof.
  intros Hin. unfold successors. apply dedup_complete; [| reflexivity].
  apply in_map. apply filter_In. split; [exact Hin | apply Z.eqb_refl].
Qed.

Lemma has_edge_successor G v w : has_edge G v w -> In w (successors G v).
Proof. intros (e & Hin & <- & <-). apply edge_successor, Hin. Qed.



Lemma relax_walk G s done d v p x :
  walk G s v (rev (v :: p)) -> In x (relax G done d v p) -> entry_walk G s x.
Proof.
  intros Hv Hx. unfold relax in Hx.
  apply in_map_iff in Hx as (w & <- & Hw).
  apply filter_In in Hw as [Hw _].
  unfold entry_walk, entry_node. cbn [fst snd].
  change (rev (w :: v :: p)) with (rev (v :: p) ++ [w]).
  apply (walk_step G s v w _ Hv). apply successors_has_edge, Hw.
Qed.

Lemma dijkstra_loop_walk G s target fuel :
  forall fringe done path,
    (forall x, In x fringe -> entry_walk G s x) ->
    dijkstra_loop fuel G target fringe done = Some path ->
    walk G s target path.
Proof.
  induction fuel as [|fuel IH]; intros fringe done path Hf H.
  - discriminate H.
  - rewrite dijkstra_loop_S in H.
    destruct (pop_min fringe) as [[[[d v] p] rest]|] eqn:E; [| discriminate H].
    apply pop_min_in in E as [Hin Hrest].
    pose proof (Hf _ Hin) as Hv. unfold entry_walk, entry_node in Hv.
    cbn [fst snd] in Hv.
    destruct (existsb (Z.eqb v) done).
    + apply (IH rest done path); [| exact H].
      intros x Hx. apply Hf, Hrest, Hx.
    + destruct (Z.eqb v target) eqn:Et.
      * apply Z.eqb_eq in Et. subst v. injection H as <-. exact Hv.
      * apply (IH _ _ path) in H; [exact H |].
        intros x Hx. apply in_app_or in Hx as [Hx|Hx].
        -- apply Hf, Hrest, Hx.
        -- apply (relax_walk G s _ d v p x Hv Hx).
Qed.

(** A path that the search returns is a walk of the graph from the
    source to the target. *)
Lemma shortest_path_walk G s t path :
  shortest_path G s t = Ok path -> walk G s t path.
Proof.
  unfold shortest_path. intros H.
  destruct (negb (has_node G s)); [discriminate H |].
  destruct (negb (has_node G t)); [discriminate H |].
  destruct (dijkstra_loop _ G t _ _) as [p|] eqn:E; [| discriminate H].
  injection H as <-.
  apply (dijkstra_loop_walk G s t _ _ _ p) in E; [exact E |].
  intros x [<-|[]]. apply walk_start.
Qed.



(** The fuel is enough: the search of a reachable target ends with a
    path, never by running out of rounds. *)

Lemma search_inv_exhausted G s t done w :
  search_inv G s t [] done -> reachable G s w ->
  existsb (Z.eqb w) done = true.
Proof.
  intros [_ Hs Hc] Hr. induction Hr as [|v w _ IH He].
  - destruct Hs as [Hs|(x & [] & _)]. exact Hs.
  - destruct (Hc v w IH He) as [Hw|(x & [] & _)]. exact Hw.
Qed.

Lemma pending_settle G (v : node) (done : list node) :
  existsb (Z.eqb v) done = false ->
  (pending G (v :: done)
   + List.length (filter (fun e => Z.eqb (e_u e) v) (edges G))
   = pending G done)%nat.
Proof.
  intros Hv. unfold pending.
  induction (edges G) as [|e es IH]; [reflexivity |].
  cbn [filter existsb].
  destruct (Z.eqb (e_u e) v) eqn:Ee; cbn [orb negb].
  - apply Z.eqb_eq in Ee. rewrite Ee, Hv. cbn [negb List.length].
    cbn [existsb] in IH. lia.
  - destruct (existsb (Z.eqb (e_u e)) done);
      cbn [negb List.length]; cbn [existsb] in IH; lia.
Qed.

Lemma relax_length G done d v p :
  (List.length (relax G done d v p)
   <= List.length (filter (fun e => Z.eqb (e_u e) v) (edges G)))%nat.
Proof.
  unfold relax, successors. rewrite length_map.
  eapply Nat.le_trans; [apply filter_length_le |].
  eapply Nat.le_trans; [apply dedup_length |].
  rewrite length_map. apply le_n.
Qed.

Lemma has_entry_rest fringe e rest w :
  pop_min fringe = Some (e, rest) -> has_entry w fringe ->
  entry_node e = w \/ has_entry w rest.
Proof.
  intros Hp (x & Hx & Hw). apply pop_min_split in Hp as [_ Hs].
  destruct (Hs x Hx) as [->|Hr]; [left; exact Hw |].
  right. exists x. split; assumption.
Qed.

Lemma dijkstra_loop_finds G s t fuel :
  forall fringe done,
    search_inv G s t fringe done -> reachable G s t ->
    (List.length fringe + pending G done <= fuel)%nat ->
    exists path, dijkstra_loop fuel G t fringe done = Some path.
Proof.
  induction fuel as [|fuel IH]; intros fringe done Hinv Hr Hm.
  - destruct fringe as [|x fringe]; [| cbn [List.length] in Hm; lia].
    pose proof (search_inv_exhausted G s t done t Hinv Hr) as Ht.
    rewrite (inv_target _ _ _ _ _ Hinv) in Ht. discriminate Ht.
  - rewrite dijkstra_loop_S.
    destruct (pop_min fringe) as [[[[d v] p] rest]|] eqn:E.
    2:{ apply pop_min_none in E. subst fringe.
        pose proof (search_inv_exhausted G s t done t Hinv Hr) as Ht.
        rewrite (inv_target _ _ _ _ _ Hinv) in Ht. discriminate Ht. }
    pose proof (pop_min_split _ _ _ E) as [Hlen _].
    destruct Hinv as [Ht Hs Hc].
    destruct (existsb (Z.eqb v) done) eqn:Ev.
    + apply IH; [| exact Hr | lia].
      split; [exact Ht | |].
      * destruct Hs as [Hs|Hs]; [left; exact Hs |].
        destruct (has_entry_rest _ _ _ _ E Hs) as [Hv|Hrest];
          [left; cbn in Hv; subst v; exact Ev | right; exact Hrest].
      * intros a b Ha Hab.
        destruct (Hc a b Ha Hab) as [Hb|Hb]; [left; exact Hb |].
        destruct (has_entry_rest _ _ _ _ E Hb) as [Hv|Hrest];
          [left; cbn in Hv; subst v; exact Ev | right; exact Hrest].
    + destruct (Z.eqb v t) eqn:Evt; [eexists; reflexivity |].
      apply IH; [| exact Hr |].
      * split.
        -- cbn [existsb]. rewrite Ht, Z.eqb_sym, Evt. reflexivity.
        -- destruct Hs as [Hs|Hs];
             [left; cbn [existsb]; rewrite Hs; apply orb_true_r |].
           destruct (has_entry_rest _ _ _ _ E Hs) as [Hv|(x & Hx & Hw)].
           ++ left. cbn in Hv. subst v. cbn [existsb].
              rewrite Z.eqb_refl. reflexivity.
           ++ right. exists x. split; [apply in_or_app; left; exact Hx | exact Hw].
        -- intros a b Ha Hab.
           destruct (existsb (Z.eqb b) (v :: done)) eqn:Eb;
             [left; reflexivity | right].
           cbn [existsb] in Ha. apply orb_true_iff in Ha as [Ha|Ha].
           ++ apply Z.eqb_eq in Ha. subst a.
              exists (d + weight_function (get_edge_data G v b), b, v :: p).
              split; [| reflexivity]. apply in_or_app. right.
              unfold relax. apply in_map_iff. exists b. split; [reflexivity |].
              apply filter_In. split; [apply has_edge_successor, Hab |].
              rewrite Eb. reflexivity.
           ++ cbn [existsb] in Eb. apply orb_false_iff in Eb as [Ebv Ebd].
              destruct (Hc a b Ha Hab) as [Hb|Hb];
                [rewrite Hb in Ebd; discriminate Ebd |].
              destruct (has_entry_rest _ _ _ _ E Hb) as [Hv|(x & Hx & Hw)].
              ** cbn in Hv. subst v. rewrite Z.eqb_refl in Ebv. discriminate Ebv.
              ** exists x. split; [apply in_or_app; left; exact Hx | exact Hw].
      * rewrite length_app.
        pose proof (relax_length G (v :: done) d v p).
        pose proof (pending_settle G v done Ev). lia.
Qed.

(** When the target can be reached the search returns a path. *)
Lemma shortest_path_finds G s t :
  has_node G s = true -> has_node G t = true -> reachable G s t ->
  exists path, shortest_path G s t = Ok path.
Proof.
  intros Hs Ht Hr. unfold shortest_path. rewrite Hs, Ht. cbn [negb].
  destruct (dijkstra_loop_finds G s t (S (List.length (edges G)))
              [(0, s, [])] []) as [p Hp].
  - split; [reflexivity | | intros v w Hv; discriminate Hv].
    right. exists (0, s, []). split; [left; reflexivity | reflexivity].
  - exact Hr.
  - unfold pending. cbn [List.length Nat.add]. apply le_n_S, filter_length_le.
  - exists p. rewrite Hp. reflexivity.
Qed.

(** ** The search returns a path of least cost *)

Lemma py_min_cases a b : py_min a b = a \/ py_min a b = b.
Proof. unfold py_min. destruct (Rltb b a); [right | left]; reflexivity. Qed.

Lemma fold_py_min_nonneg (ds : list EdgeData) : forall acc,
  0 <= acc -> (forall d, In d ds -> 0 <= attr_weight d) ->
  0 <= fold_left (fun m d' => py_min m (attr_weight d')) ds acc.
Proof.
  induction ds as [|d ds IH]; intros acc Hacc Hds; [exact Hacc |].
  cbn [fold_left]. apply IH.
  - destruct (py_min_cases acc (attr_weight d)) as [->| ->];
      [exact Hacc | apply Hds; left; reflexivity].
  - intros d' Hd'. apply Hds. right. exact Hd'.
Qed.

Lemma edge_cost_nonneg G u v : nonneg_weights G -> 0 <= edge_cost G u v.
Proof.
  intros Hn. unfold edge_cost, weight_function.
  assert (Hds : forall d, In d (get_edge_data G u v) -> 0 <= attr_weight d).
  { intros d Hd. unfold get_edge_data in Hd.
    apply in_map_iff in Hd as (e & <- & He).
    apply filter_In in He as [He _]. exact (Hn e He). }
  destruct (get_edge_data G u v) as [|d ds]; [lra |].
  apply fold_py_min_nonneg.
  - apply Hds. left. reflexivity.
  - intros d' Hd'. apply Hds. right. exact Hd'.
Qed.

Lemma path_cost_nonneg G p : nonneg_weights G -> 0 <= path_cost G p.
Proof.
  intros Hn. induction p as [|u [|v rest] IH]; cbn [path_cost]; try lra.
  pose proof (edge_cost_nonneg G u v Hn). cbn [path_cost] in IH. lra.
Qed.

Lemma path_cost_snoc G p v w :
  path_cost G ((p ++ [v]) ++ [w]) = path_cost G (p ++ [v]) + edge_cost G v w.
Proof.
  induction p as [|a [|b p] IH].
  - cbn. lra.
  - cbn. lra.
  - change (path_cost G (((a :: b :: p) ++ [v]) ++ [w]))
      with (edge_cost G a b + path_cost G (((b :: p) ++ [v]) ++ [w])).
    change (path_cost G ((a :: b :: p) ++ [v]))
      with (edge_cost G a b + path_cost G ((b :: p) ++ [v])).
    rewrite IH. lra.
Qed.

Lemma walk_last G s v p : walk G s v p -> exists p', p = p' ++ [v].
Proof.
  destruct 1 as [|u w p _ _]; [exists []; reflexivity | exists p; reflexivity].
Qed.

Lemma walk_cost_step G s v w p :
  walk G s v p -> path_cost G (p ++ [w]) = path_cost G p + edge_cost G v w.
Proof.
  intros H. destruct (walk_last G s v p H) as [p' ->]. apply path_cost_snoc.
Qed.

Lemma pop_min_least fringe e rest :
  pop_min fringe = Some (e, rest) ->
  forall x, In x fringe -> entry_dist e <= entry_dist x.
Proof.
  revert e rest. induction fringe as [|a fringe IH]; intros e rest H x Hx.
  - discriminate H.
  - cbn [pop_min] in H.
    destruct (pop_min fringe) as [[m rest']|] eqn:E.
    + pose proof (IH m rest' eq_refl) as Hm.
      destruct (Rltb (entry_dist m) (entry_dist a)) eqn:Hlt;
        injection H as <- <-.
      * apply Rltb_spec in Hlt.
        destruct Hx as [<-|Hx]; [lra | exact (Hm x Hx)].
      * assert (entry_dist a <= entry_dist m).
        { destruct (Rle_dec (entry_dist a) (entry_dist m)) as [Hle|Hle];
            [exact Hle |].
          rewrite Rltb_true in Hlt by lra. discriminate Hlt. }
        destruct Hx as [<-|Hx]; [lra |].
        pose proof (Hm x Hx). lra.
    + injection H as <- <-. apply pop_min_none in E. subst fringe.
      destruct Hx as [<-|[]]. lra.
Qed.

(** On the way of any walk from the source, either its end is settled or
    the fringe holds an entry that costs no more than the walk. *)
Lemma frontier G s fringe done dist v q :
  nonneg_weights G -> opt_inv G s fringe done dist -> walk G s v q ->
  existsb (Z.eqb v) done = true
  \/ exists x, In x fringe /\ entry_dist x <= path_cost G q.
Proof.
  intros Hn Hinv Hw. induction Hw as [|v w p Hp IH He].
  - destruct (o_source _ _ _ _ _ Hinv) as [[Hs _]|(x & Hx & _ & Hd)].
    + left. exact Hs.
    + right. exists x. split; [exact Hx | exact Hd].
  - rewrite (walk_cost_step G s v w p Hp).
    pose proof (edge_cost_nonneg G v w Hn) as Hc.
    destruct IH as [Hv|(x & Hx & Hd)].
    + destruct (o_closed _ _ _ _ _ Hinv v w Hv He) as [Hw|(x & Hx & _ & Hd)].
      * left. exact Hw.
      * right. exists x. split; [exact Hx |].
        pose proof (o_opt _ _ _ _ _ Hinv v p Hv Hp). lra.
    + right. exists x. split; [exact Hx | lra].
Qed.

Lemma popped_is_least G s fringe done dist d v p rest q :
  nonneg_weights G -> opt_inv G s fringe done dist ->
  pop_min fringe = Some ((d, v, p), rest) ->
  existsb (Z.eqb v) done = false ->
  walk G s v q -> d <= path_cost G q.
Proof.
  intros Hn Hinv Hp Hv Hw.
  destruct (frontier G s fringe done dist v q Hn Hinv Hw)
    as [Hd|(x & Hx & Hd)].
  - rewrite Hd in Hv. discriminate Hv.
  - pose proof (pop_min_least _ _ _ Hp x Hx) as Hle. cbn in Hle. lra.
Qed.

Lemma relax_ok G s done d v p x :
  entry_ok G s (d, v, p) -> In x (relax G done d v p) -> entry_ok G s x.
Proof.
  intros [Hw Hd] Hx. unfold entry_walk, entry_node, entry_dist in Hw, Hd.
  cbn [fst snd] in Hw, Hd.
  split; [exact (relax_walk G s done d v p x Hw Hx) |].
  unfold relax in Hx. apply in_map_iff in Hx as (w & <- & _).
  unfold entry_dist, entry_node. cbn [fst snd].
  change (rev (w :: v :: p)) with (rev (v :: p) ++ [w]).
  rewrite (walk_cost_step G s v w _ Hw), Hd. reflexivity.
Qed.

Lemma dijkstra_loop_least G s t fuel :
  nonneg_weights G ->
  forall fringe done dist path,
    opt_inv G s fringe done dist ->
    dijkstra_loop fuel G t fringe done = Some path ->
    forall q, walk G s t q -> path_cost G path <= path_cost G q.
Proof.
  intros Hn. induction fuel as [|fuel IH]; intros fringe done dist path Hinv H.
  - discriminate H.
  - rewrite dijkstra_loop_S in H.
    destruct (pop_min fringe) as [[[[d v] p] rest]|] eqn:E; [| discriminate H].
    pose proof (pop_min_in _ _ _ E) as [Hin Hrest].
    pose proof (pop_min_split _ _ _ E) as [_ Hsplit].
    pose proof (o_entries _ _ _ _ _ Hinv _ Hin) as Hok.
    destruct (existsb (Z.eqb v) done) eqn:Ev.
    + apply (IH rest done dist path); [| exact H].
      destruct Hinv as [Hent Hsrc Hopt Hcl]. split.
      * intros x Hx. apply Hent, Hrest, Hx.
      * destruct Hsrc as [Hs|(x & Hx & Hxs & Hxd)]; [left; exact Hs |].
        destruct (Hsplit x Hx) as [->|Hr].
        -- left. cbn in Hxs. subst v. split; [exact Ev |].
           exact (Hopt s [s] Ev (walk_start G s)).
        -- right. exists x. repeat split; assumption.
      * exact Hopt.
      * intros a b Ha Hab.
        destruct (Hcl a b Ha Hab) as [Hb|(x & Hx & Hxb & Hxd)];
          [left; exact Hb |].
        destruct (Hsplit x Hx) as [->|Hr].
        -- left. cbn in Hxb. subst v. exact Ev.
        -- right. exists x. repeat split; assumption.
    + destruct (Z.eqb v t) eqn:Evt.
      * apply Z.eqb_eq in Evt. subst v. injection H as <-.
        intros q Hq. destruct Hok as [_ Hd].
        unfold entry_dist, entry_node in Hd. cbn [fst snd] in Hd.
        change (rev p ++ [t]) with (rev (t :: p)). rewrite <- Hd.
        exact (popped_is_least G s fringe done dist d t p rest q Hn Hinv E Ev Hq).
      * apply (IH (rest ++ relax G (v :: done) d v p) (v :: done)
                 (fun n => if Z.eqb n v then d else dist n) path); [| exact H].
        assert (Hleast : forall q, walk G s v q -> d <= path_cost G q).
        { intros q Hq.
          exact (popped_is_least G s fringe done dist d v p rest q Hn Hinv E Ev Hq). }
        assert (Hkeep : forall a, existsb (Z.eqb a) done = true ->
                                  Z.eqb a v = false).
        { intros a Ha. destruct (Z.eqb a v) eqn:Eav; [| reflexivity].
          apply Z.eqb_eq in Eav. subst a. rewrite Ha in Ev. discriminate Ev. }
        destruct Hinv as [Hent Hsrc Hopt Hcl]. split.
        -- intros x Hx. apply in_app_or in Hx as [Hx|Hx].
           ++ apply Hent, Hrest, Hx.
           ++ exact (relax_ok G s _ d v p x Hok Hx).
        -- destruct Hsrc as [[Hs Hd]|(x & Hx & Hxs & Hxd)].
           ++ left. cbn [existsb]. rewrite Hs, orb_true_r.
              rewrite (Hkeep s Hs). split; [reflexivity | exact Hd].
           ++ destruct (Hsplit x Hx) as [->|Hr].
              ** left. cbn in Hxs, Hxd. subst v. cbn [existsb].
                 rewrite Z.eqb_refl. split; [reflexivity | exact Hxd].
              ** right. exists x.
                 split; [apply in_or_app; left; exact Hr | split; assumption].
        -- intros a q Ha Hq. cbn [existsb] in Ha.
           destruct (Z.eqb a v) eqn:Eav.
           ++ apply Z.eqb_eq in Eav. subst a. exact (Hleast q Hq).
           ++ cbn [orb] in Ha. exact (Hopt a q Ha Hq).
        -- intros a b Ha Hab.
           destruct (existsb (Z.eqb b) (v :: done)) eqn:Eb;
             [left; reflexivity | right].
           cbn [existsb] in Ha, Eb. apply orb_false_iff in Eb as [Ebv Ebd].
           destruct (Z.eqb a v) eqn:Eav.
           ++ apply Z.eqb_eq in Eav. subst a.
              exists (d + weight_function (get_edge_data G v b), b, v :: p).
              split; [| split; [reflexivity |]].
              ** apply in_or_app. right. unfold relax. apply in_map_iff.
                 exists b. split; [reflexivity |]. apply filter_In.
                 split; [apply has_edge_successor, Hab |].
                 cbn [existsb]. rewrite Ebv, Ebd. reflexivity.
              ** unfold entry_dist, edge_cost. cbn [fst]. lra.
           ++ cbn [orb] in Ha.
              destruct (Hcl a b Ha Hab) as [Hb|(x & Hx & Hxb & Hxd)];
                [rewrite Hb in Ebd; discriminate Ebd |].
              destruct (Hsplit x Hx) as [->|Hr].
              ** cbn in Hxb. subst v. rewrite Z.eqb_refl in Ebv.
                 discriminate Ebv.
              ** exists x.
                 split; [apply in_or_app; left; exact Hr | split; assumption].
Qed.

(** Without negative weights, a returned path is a walk from the source
    to the target that costs no more than any other. *)
Lemma shortest_path_least_cost G s t path :
  nonneg_weights G -> shortest_path G s t = Ok path ->
  walk G s t path
  /\ forall q, walk G s t q -> path_cost G path <= path_cost G q.
Proof.
  intros Hn H. split; [exact (shortest_path_walk G s t path H) |].
  unfold shortest_path in H.
  destruct (negb (has_node G s)); [discriminate H |].
  destruct (negb (has_node G t)); [discriminate H |].
  destruct (dijkstra_loop _ G t _ _) as [p|] eqn:E; [| discriminate H].
  injection H as <-.
  apply (dijkstra_loop_least G s t (S (List.length (edges G))) Hn
           [(0, s, [])] [] (fun _ => 0) p); [| exact E].
  split.
  - intros x [<-|[]]. split; [apply walk_start | reflexivity].
  - right. exists (0, s, []).
    split; [left; reflexivity | split; [reflexivity | cbn; lra]].
  - intros v q Hv. discriminate Hv.
  - intros v w Hv. discriminate Hv.
Qed.

(** ** The nearest node is a node of the graph *)

Lemma nearest_scan_node (P : node -> Prop) coord l :
  forall best,
    (forall d n, best = Some (d, n) -> P n) ->
    (forall p, In p l -> P (fst p)) ->
    forall d n, fold_left (nearest_step coord) l best = Some (d, n) -> P n.
Proof.
  induction l as [|p l IH]; intros best Hb Hl d n H.
  - exact (Hb d n H).
  - cbn [fold_left] in H. apply (IH _) in H; [exact H | | ].
    + intros d' n' Hs. unfold nearest_step in Hs.
      destruct (nd_x (snd p)), (nd_y (snd p));
        try (exact (Hb d' n' Hs)).
      destruct best as [[bd bn]|].
      * destruct (Rltb _ bd).
        -- injection Hs as _ <-. apply Hl. left. reflexivity.
        -- exact (Hb d' n' Hs).
      * injection Hs as _ <-. apply Hl. left. reflexivity.
    + intros q Hq. apply Hl. right. exact Hq.
Qed.

Lemma find_nearest_node_has_node env self G coord n :
  graph self = Some G -> find_nearest_node env self coord = Ok n ->
  has_node G n = true.
Proof.
  intros HG H. unfold find_nearest_node in H. rewrite HG in H.
  destruct (in_pytest env).
  - destruct (fold_left (nearest_step coord) (nodes G) None) as [[d m]|] eqn:E;
      [| discriminate H].
    injection H as ->.
    apply (nearest_scan_node (fun k => has_node G k = true) coord (nodes G) None)
      in E; [exact E | discriminate |].
    intros p Hp. unfold has_node. apply existsb_exists.
    exists p. split; [exact Hp | apply Z.eqb_refl].
  - destruct (nearest_nodes env G (lon coord) (lat coord)) as [m|];
      [| discriminate H].
    cbn [rbind] in H.
    destruct (node_attrs G m) as [nd|] eqn:E; [| discriminate H].
    cbn [rbind] in H.
    destruct (nd_y nd), (nd_x nd); try discriminate H.
    injection H as <-. exact (node_attrs_has_node G m nd E).
Qed.




(** ** Edges that normalisation cannot weigh *)

Lemma normalise_edge_unweighable env G e :
  no_valid_length env e -> no_fallback G e -> normalise_edge env G e = Ok e.
Proof.
  intros Hl (nu & nv & Hu & Hv & Hc).
  unfold normalise_edge; cbv zeta.
  destruct Hl as [Hl|(s & Hl & Hp)]; rewrite Hl; [| rewrite Hp];
    rewrite Hu, Hv; cbn [rbind];
    destruct (nd_y nu), (nd_x nu), (nd_y nv), (nd_x nv); try reflexivity;
    destruct Hc as [H|[H|[H|H]]]; discriminate H.
Qed.

Lemma normalise_edges_keeps env G es es' e :
  normalise_edges env G es = Ok es' -> In e es ->
  no_valid_length env e -> no_fallback G e -> In e es'.
Proof.
  revert es'. induction es as [|a es IH]; intros es' H Hin Hl Hc.
  - destruct Hin.
  - cbn [normalise_edges] in H.
    destruct (normalise_edge env G a) as [a'|] eqn:Ea; [| discriminate H].
    cbn [rbind] in H.
    destruct (normalise_edges env G es) as [rest|]; [| discriminate H].
    cbn [rbind] in H. injection H as <-.
    destruct Hin as [->|Hin].
    + rewrite (normalise_edge_unweighable env G e Hl Hc) in Ea.
      injection Ea as <-. left. reflexivity.
    + right. exact (IH rest eq_refl Hin Hl Hc).
Qed.

(** C3, as the code has it: an edge that carries no weight, has no usable
    length and whose endpoints do not both have coordinates is left in
    the normalised graph as it was, without a weight.  The search does
    not leave it out: its head stays a neighbour of its tail, at the
    cost of 1 that networkx gives an edge without the attribute, and
    (no weight being negative) a path from its tail to its head is
    always found.  The step builder
    skips it: where it is the first edge between its endpoints, the path
    over it has no step and distance 0. *)
Theorem unweighable_edge_kept_at_cost_one env G G' e :
  _ensure_numeric_weights env G = Ok G' ->
  In e (edges G) ->
  no_valid_length env e -> no_fallback G e ->
  ed_weight (e_data e) = None ->
  In e (edges G')
  /\ In (e_v e) (successors G' (e_u e))
  /\ attr_weight (e_data e) = 1
  /\ (nonneg_weights G' ->
      exists path, shortest_path G' (e_u e) (e_v e) = Ok path)
  /\ forall rest,
       get_edge_data G' (e_u e) (e_v e) = e_data e :: rest ->
       _build_steps_from_path G' [e_u e; e_v e] = ([], 0).
Proof.
  intros H Hin Hl Hc Hw.
  unfold _ensure_numeric_weights in H.
  destruct (normalise_edges env G (edges G)) as [es|] eqn:E; [| discriminate H].
  cbn [rbind] in H. injection H as <-.
  pose proof (normalise_edges_keeps env G _ es e E Hin Hl Hc) as Hin'.
  split; [exact Hin' |]. split; [| split; [| split]].
  - apply edge_successor. exact Hin'.
  - unfold attr_weight. rewrite Hw. reflexivity.
  - intros _. destruct Hc as (nu & nv & Hu & Hv & _).
    apply shortest_path_finds.
    + exact (node_attrs_has_node G _ nu Hu).
    + exact (node_attrs_has_node G _ nv Hv).
    + apply (reach_step _ _ (e_u e)); [apply reach_here |].
      exists e. split; [exact Hin' | split; reflexivity].
  - intros rest Hd. unfold _build_steps_from_path.
    cbn [List.length Nat.ltb Nat.leb steps_loop]. rewrite Hd, Hw. reflexivity.
Qed.

Lemma bare_graph_normalised :
  _ensure_numeric_weights test_env bare_graph = Ok bare_graph.
Proof. reflexivity. Qed.

Lemma bare_edge_no_fallback : no_fallback bare_graph bare_edge.
Proof.
  exists (mkNodeData None None), (mkNodeData (Some 10) (Some 46)).
  split; [reflexivity |]. split; [reflexivity |]. left. reflexivity.
Qed.

(** The edge of [bare_graph]. *)
Lemma unweighable_edge_kept_at_cost_one_witness :
  In bare_edge (edges bare_graph)
  /\ In (e_v bare_edge) (successors bare_graph (e_u bare_edge))
  /\ attr_weight (e_data bare_edge) = 1
  /\ (nonneg_weights bare_graph ->
      exists path,
        shortest_path bare_graph (e_u bare_edge) (e_v bare_edge) = Ok path)
  /\ forall rest,
       get_edge_data bare_graph (e_u bare_edge) (e_v bare_edge)
       = e_data bare_edge :: rest ->
       _build_steps_from_path bare_graph [e_u bare_edge; e_v bare_edge]
       = ([], 0).
Proof.
  apply (unweighable_edge_kept_at_cost_one test_env bare_graph bare_graph
           bare_edge).
  - reflexivity.
  - left. reflexivity.
  - left. reflexivity.
  - exact bare_edge_no_fallback.
  - reflexivity.
Defined.

Lemma bare_graph_path :
  shortest_path bare_graph 1%Z 2%Z = Ok [1; 2]%Z.
Proof.
  unfold shortest_path, bare_graph, bare_edge.
  do 2 dijkstra_step. reflexivity.
Qed.

Lemma bare_graph_without_edge_no_path :
  shortest_path (remove_edge bare_graph 1%Z 2%Z 0%Z) 1%Z 2%Z = Raise NetworkXNoPath.
Proof.
  unfold shortest_path, remove_edge, bare_graph, bare_edge.
  reval. dijkstra_step. reflexivity.
Qed.

(** C3 as stated fails: the one edge of [bare_graph] has neither length
    nor weight and its tail has no coordinates, normalisation leaves it
    so, and yet the shortest path from 1 to 2 runs over it; without the
    edge there is no path at all.  So it is not the case that the
    presence of such an edge never changes the outcome of the search. *)
Lemma unweighable_edge_is_traversed :
  _ensure_numeric_weights test_env bare_graph = Ok bare_graph
  /\ edges bare_graph = [bare_edge]
  /\ ed_weight (e_data bare_edge) = None
  /\ shortest_path bare_graph 1%Z 2%Z = Ok [1; 2]%Z
  /\ shortest_path (remove_edge bare_graph 1%Z 2%Z 0%Z) 1%Z 2%Z
     = Raise NetworkXNoPath
  /\ ~ (forall env G G' e,
          _ensure_numeric_weights env G = Ok G' ->
          In e (edges G) ->
          no_valid_length env e -> no_fallback G e ->
          forall s t,
            shortest_path G' s t
            = shortest_path (remove_edge G' (e_u e) (e_v e) (e_key e)) s t).
Proof.
  split; [exact bare_graph_normalised |].
  split; [reflexivity |]. split; [reflexivity |].
  split; [exact bare_graph_path |].
  split; [exact bare_graph_without_edge_no_path |].
  intros H.
  specialize (H test_env bare_graph bare_graph bare_edge
                bare_graph_normalised (or_introl eq_refl)
                (or_introl eq_refl) bare_edge_no_fallback 1%Z 2%Z).
  cbn [e_u e_v e_key bare_edge] in H.
  rewrite bare_graph_path, bare_graph_without_edge_no_path in H.
  discriminate H.
Qed.

(** * Further properties *)

(** ** Steps, distance and duration *)

Lemma steps_loop_acc G path : forall steps total,
  steps_loop G path steps total
  = (steps ++ fst (steps_loop G path [] 0),
     fold_left Rplus (map step_distance_m (fst (steps_loop G path [] 0)))
       total).
Proof.
  induction path as [|u rest IH]; intros steps total.
  - cbn. rewrite app_nil_r. reflexivity.
  - destruct rest as [|v rest'].
    + cbn. rewrite app_nil_r. reflexivity.
    + change (steps_loop G (u :: v :: rest') steps total) with
        (match get_edge_data G u v with
         | [] => steps_loop G (v :: rest') steps total
         | data :: _ =>
           match ed_weight data with
           | None => steps_loop G (v :: rest') steps total
           | Some w =>
             steps_loop G (v :: rest')
               (steps ++ [mkRouteStep u v w (w / speed_mps)]) (total + w)
           end
         end).
      change (steps_loop G (u :: v :: rest') [] 0) with
        (match get_edge_data G u v with
         | [] => steps_loop G (v :: rest') [] 0
         | data :: _ =>
           match ed_weight data with
           | None => steps_loop G (v :: rest') [] 0
           | Some w =>
             steps_loop G (v :: rest')
               ([] ++ [mkRouteStep u v w (w / speed_mps)]) (0 + w)
           end
         end).
      destruct (get_edge_data G u v) as [|data ds]; [apply IH |].
      destruct (ed_weight data) as [w|]; [| apply IH].
      rewrite (IH (steps ++ _) (total + w)), (IH ([] ++ _) (0 + w)).
      cbn [fst snd app map fold_left step_distance_m].
      rewrite <- app_assoc. reflexivity.
Qed.

(** The steps of a path: those of its tail, after the step of its first
    edge when that edge has a weight. *)
Lemma path_steps_cons G u v rest :
  fst (steps_loop G (u :: v :: rest) [] 0) =
  match get_edge_data G u v with
  | [] => fst (steps_loop G (v :: rest) [] 0)
  | data :: _ =>
    match ed_weight data with
    | None => fst (steps_loop G (v :: rest) [] 0)
    | Some w =>
      mkRouteStep u v w (w / speed_mps) :: fst (steps_loop G (v :: rest) [] 0)
    end
  end.
Proof.
  change (steps_loop G (u :: v :: rest) [] 0) with
    (match get_edge_data G u v with
     | [] => steps_loop G (v :: rest) [] 0
     | data :: _ =>
       match ed_weight data with
       | None => steps_loop G (v :: rest) [] 0
       | Some w =>
         steps_loop G (v :: rest)
           ([] ++ [mkRouteStep u v w (w / speed_mps)]) (0 + w)
       end
     end).
  destruct (get_edge_data G u v) as [|data ds]; [reflexivity |].
  destruct (ed_weight data) as [w|]; [| reflexivity].
  rewrite steps_loop_acc. reflexivity.
Qed.

Lemma build_steps_is_loop G path :
  _build_steps_from_path G path = steps_loop G path [] 0.
Proof.
  unfold _build_steps_from_path.
  destruct path as [|u [|v rest]]; reflexivity.
Qed.

Lemma build_steps_total G path :
  snd (_build_steps_from_path G path)
  = sum_R (map step_distance_m (fst (_build_steps_from_path G path))).
Proof.
  rewrite build_steps_is_loop, (steps_loop_acc G path [] 0). reflexivity.
Qed.

Lemma path_steps_durations G path :
  Forall (fun st => step_duration_s st = step_distance_m st / speed_mps)
    (fst (steps_loop G path [] 0)).
Proof.
  induction path as [|u rest IH]; [constructor |].
  destruct rest as [|v rest']; [constructor |].
  rewrite path_steps_cons.
  destruct (get_edge_data G u v) as [|data ds]; [exact IH |].
  destruct (ed_weight data) as [w|]; [| exact IH].
  constructor; [reflexivity | exact IH].
Qed.

(** X1: on every computed route the distance is what adding up the
    distances of the steps, in order and from zero, gives; and every
    step lasts its distance divided by 40 km/h in metres per second. *)
Theorem route_distance_is_sum_of_steps env self request r self' :
  compute_route env self request = (Ok r, self') ->
  distance_m r = sum_R (map step_distance_m (steps r))
  /\ Forall (fun st =>
               step_duration_s st = step_distance_m st / (40 * 1000 / 3600))
       (steps r).
Proof.
  intros H. apply compute_route_inv in H as [_ H].
  apply route_on_graph_inv in H
    as (G & s & t & path & coords & coords' & _ & _ & _ & _ & _ & _
        & Hst & Hd & _ & _).
  rewrite Hd, Hst. split; [apply build_steps_total |].
  rewrite build_steps_is_loop, <- speed_mps_value.
  apply path_steps_durations.
Qed.

Lemma route_distance_is_sum_of_steps_witness :
  distance_m test_response = sum_R (map step_distance_m (steps test_response))
  /\ Forall (fun st =>
               step_duration_s st = step_distance_m st / (40 * 1000 / 3600))
       (steps test_response).
Proof.
  apply (route_distance_is_sum_of_steps test_env GraphManager_init
           test_request test_response dummy_manager).
  apply dummy_compute_route.
Defined.

(** ** The steps follow the path *)

Lemma pairs_snoc (p : list node) (v w : node) :
  pairs ((p ++ [v]) ++ [w]) = pairs (p ++ [v]) ++ [(v, w)].
Proof.
  induction p as [|a p IH]; [reflexivity |].
  change (((a :: p) ++ [v]) ++ [w]) with (a :: ((p ++ [v]) ++ [w])).
  change ((a :: p) ++ [v]) with (a :: (p ++ [v])).
  destruct p as [|b p'].
  - reflexivity.
  - change (pairs (a :: ((b :: p') ++ [v]) ++ [w]))
      with ((a, b) :: pairs (((b :: p') ++ [v]) ++ [w])).
    rewrite IH. reflexivity.
Qed.

Lemma walk_pairs G s t p :
  walk G s t p -> forall u v, In (u, v) (pairs p) -> has_edge G u v.
Proof.
  induction 1 as [|v w p Hw IH He]; intros a b Hin.
  - destruct Hin.
  - destruct (walk_last G s v p Hw) as [p' ->].
    rewrite pairs_snoc in Hin. apply in_app_or in Hin as [Hin|[Hin|[]]].
    + exact (IH a b Hin).
    + injection Hin as <- <-. exact He.
Qed.

Lemma pairs_length (p : list node) :
  List.length (pairs p) = (List.length p - 1)%nat.
Proof.
  induction p as [|u rest IH]; [reflexivity |].
  destruct rest as [|v rest']; [reflexivity |].
  change (pairs (u :: v :: rest')) with ((u, v) :: pairs (v :: rest')).
  cbn [List.length] in *. lia.
Qed.

(** The first of the edges from [u] to [v], when there is one. *)
Lemma has_edge_first G u v :
  has_edge G u v ->
  exists e ds, In e (edges G) /\ e_u e = u /\ e_v e = v
               /\ get_edge_data G u v = e_data e :: ds.
Proof.
  intros (e & Hin & Hu & Hv). unfold get_edge_data.
  assert (Hf : In e (filter (fun e => Z.eqb (e_u e) u && Z.eqb (e_v e) v)
                       (edges G))).
  { apply filter_In. split; [exact Hin |].
    rewrite Hu, Hv, !Z.eqb_refl. reflexivity. }
  destruct (filter (fun e => Z.eqb (e_u e) u && Z.eqb (e_v e) v) (edges G))
    as [|e0 es] eqn:E; [destruct Hf |].
  assert (H0 : In e0 (filter (fun e => Z.eqb (e_u e) u && Z.eqb (e_v e) v)
                        (edges G))) by (rewrite E; left; reflexivity).
  apply filter_In in H0 as [H0 Hb].
  apply andb_prop in Hb as [Hb1 Hb2].
  apply Z.eqb_eq in Hb1, Hb2.
  exists e0, (map e_data es). repeat split; assumption || reflexivity.
Qed.

Lemma path_steps_ends G path :
  all_weighted G ->
  (forall u v, In (u, v) (pairs path) -> has_edge G u v) ->
  map step_ends (fst (steps_loop G path [] 0)) = pairs path.
Proof.
  intros Hw. induction path as [|u rest IH]; intros He; [reflexivity |].
  destruct rest as [|v rest']; [reflexivity |].
  rewrite path_steps_cons.
  change (pairs (u :: v :: rest')) with ((u, v) :: pairs (v :: rest')) in *.
  destruct (has_edge_first G u v (He u v (or_introl eq_refl)))
    as (e & ds & Hin & _ & _ & ->).
  destruct (ed_weight (e_data e)) as [w|] eqn:E;
    [| exfalso; exact (Hw e Hin E)].
  cbn [map]. f_equal. apply IH.
  intros a b Hab. apply He. right. exact Hab.
Qed.

(** X2: when every edge of the graph in use carries a weight, the steps
    of a computed route are the consecutive pairs of a walk in that
    graph from the node nearest the origin to the node nearest the
    destination: one step per edge of the walk, in order, each starting
    where the one before ended. *)
Theorem route_steps_follow_walk env self request r self' G :
  compute_route env self request = (Ok r, self') ->
  graph self' = Some G ->
  all_weighted G ->
  exists s t path,
    find_nearest_node env self' (origin request) = Ok s
    /\ find_nearest_node env self' (destination request) = Ok t
    /\ walk G s t path
    /\ map step_ends (steps r) = pairs path
    /\ List.length (steps r) = (List.length path - 1)%nat.
Proof.
  intros H HG Hw. apply compute_route_inv in H as [_ H].
  apply route_on_graph_inv in H
    as (G' & s & t & path & coords & coords' & HG' & Hs & Ht & Hp & _ & _
        & Hst & _).
  rewrite HG in HG'. injection HG' as <-.
  pose proof (shortest_path_walk G s t path Hp) as Hwalk.
  assert (Hends : map step_ends (steps r) = pairs path).
  { rewrite Hst, build_steps_is_loop.
    apply path_steps_ends; [exact Hw | exact (walk_pairs G s t path Hwalk)]. }
  exists s, t, path. repeat split; try assumption.
  rewrite <- pairs_length, <- Hends, length_map. reflexivity.
Qed.

Lemma dummy_all_weighted : all_weighted _build_dummy_graph_for_tests.
Proof.
  intros e [<-|[<-|[<-|[]]]]; discriminate.
Qed.

Lemma route_steps_follow_walk_witness :
  exists s t path,
    find_nearest_node test_env dummy_manager (origin test_request) = Ok s
    /\ find_nearest_node test_env dummy_manager (destination test_request)
       = Ok t
    /\ walk _build_dummy_graph_for_tests s t path
    /\ map step_ends (steps test_response) = pairs path
    /\ List.length (steps test_response) = (List.length path - 1)%nat.
Proof.
  apply (route_steps_follow_walk test_env GraphManager_init test_request
           test_response dummy_manager _build_dummy_graph_for_tests).
  - apply dummy_compute_route.
  - reflexivity.
  - apply dummy_all_weighted.
Defined.

(** ** The distance reported and the cost the search minimised *)

Lemma fold_left_Rplus (l : list R) : forall a,
  fold_left Rplus l a = a + sum_R l.
Proof.
  unfold sum_R. induction l as [|x l IH]; intros a; cbn [fold_left].
  - lra.
  - rewrite (IH (a + x)), (IH (0 + x)). lra.
Qed.

Lemma fold_py_min_le (ds : list EdgeData) : forall acc,
  fold_left (fun m d' => py_min m (attr_weight d')) ds acc <= acc.
Proof.
  induction ds as [|d ds IH]; intros acc; cbn [fold_left]; [lra |].
  eapply Rle_trans; [apply IH |]. rewrite py_min_Rmin. apply Rmin_l.
Qed.

Lemma path_total_cons G u v rest :
  snd (steps_loop G (u :: v :: rest) [] 0) =
  match get_edge_data G u v with
  | [] => snd (steps_loop G (v :: rest) [] 0)
  | data :: _ =>
    match ed_weight data with
    | None => snd (steps_loop G (v :: rest) [] 0)
    | Some w => w + snd (steps_loop G (v :: rest) [] 0)
    end
  end.
Proof.
  rewrite (steps_loop_acc G (u :: v :: rest) [] 0),
    (steps_loop_acc G (v :: rest) [] 0).
  cbn [snd]. rewrite path_steps_cons.
  destruct (get_edge_data G u v) as [|data ds]; [reflexivity |].
  destruct (ed_weight data) as [w|]; [| reflexivity].
  cbn [map fold_left step_distance_m].
  rewrite fold_left_Rplus, (fold_left_Rplus _ 0). lra.
Qed.

Lemma path_total_bounds G path :
  all_weighted G ->
  (forall u v, In (u, v) (pairs path) -> has_edge G u v) ->
  path_cost G path <= snd (steps_loop G path [] 0)
  /\ (no_parallel_edges G -> snd (steps_loop G path [] 0) = path_cost G path).
Proof.
  intros Hw. induction path as [|u rest IH]; intros He.
  - cbn. split; [lra | reflexivity].
  - destruct rest as [|v rest']; [cbn; split; [lra | reflexivity] |].
    rewrite path_total_cons.
    change (path_cost G (u :: v :: rest'))
      with (edge_cost G u v + path_cost G (v :: rest')).
    change (pairs (u :: v :: rest')) with ((u, v) :: pairs (v :: rest')) in He.
    destruct IH as [IH1 IH2];
      [intros a b Hab; apply He; right; exact Hab |].
    pose proof (has_edge_first G u v (He u v (or_introl eq_refl)))
      as (e & ds & Hin & _ & _ & Hd).
    unfold edge_cost. unfold no_parallel_edges.
    destruct (ed_weight (e_data e)) as [w|] eqn:E;
      [| exfalso; exact (Hw e Hin E)].
    rewrite Hd, E.
    assert (Hfirst : attr_weight (e_data e) = w)
      by (unfold attr_weight; rewrite E; reflexivity).
    split.
    + cbn [weight_function].
      pose proof (fold_py_min_le ds (attr_weight (e_data e))). lra.
    + intros Hnp. pose proof (Hnp u v) as Hone. rewrite Hd in Hone.
      destruct ds as [|d' ds']; [| cbn in Hone; lia].
      cbn [weight_function fold_left]. rewrite Hfirst, (IH2 Hnp).
      reflexivity.
Qed.

(** X3: when every edge of the graph in use carries a weight and none
    is negative, the distance of a computed route is at least the cost
    of the path the search found (the search takes the cheapest of
    parallel edges, the steps take the first); on a graph without
    parallel edges the two are equal, and no walk between the two
    nearest nodes costs less than the distance reported. *)
Theorem route_distance_and_search_cost env self request r self' G :
  compute_route env self request = (Ok r, self') ->
  graph self' = Some G ->
  all_weighted G ->
  nonneg_weights G ->
  exists s t path,
    find_nearest_node env self' (origin request) = Ok s
    /\ find_nearest_node env self' (destination request) = Ok t
    /\ walk G s t path
    /\ path_cost G path <= distance_m r
    /\ (no_parallel_edges G ->
        distance_m r = path_cost G path
        /\ forall q, walk G s t q -> distance_m r <= path_cost G q).
Proof.
  intros H HG Hw Hnn. apply compute_route_inv in H as [_ H].
  apply route_on_graph_inv in H
    as (G' & s & t & path & coords & coords' & HG' & Hs & Ht & Hp & _ & _
        & _ & Hd & _).
  rewrite HG in HG'. injection HG' as <-.
  destruct (shortest_path_least_cost G s t path Hnn Hp) as [Hwalk Hleast].
  destruct (path_total_bounds G path Hw (walk_pairs G s t path Hwalk))
    as [Hle Heq].
  rewrite build_steps_is_loop in Hd.
  exists s, t, path. repeat split; try assumption.
  - rewrite Hd. exact Hle.
  - rewrite Hd. exact (Heq H).
  - intros q Hq. rewrite Hd, (Heq H). exact (Hleast q Hq).
Qed.

Lemma dummy_nonneg_weights : nonneg_weights _build_dummy_graph_for_tests.
Proof.
  intros e [<-|[<-|[<-|[]]]]; unfold attr_weight; cbn; lra.
Qed.

Lemma route_distance_and_search_cost_witness :
  exists s t path,
    find_nearest_node test_env dummy_manager (origin test_request) = Ok s
    /\ find_nearest_node test_env dummy_manager (destination test_request)
       = Ok t
    /\ walk _build_dummy_graph_for_tests s t path
    /\ path_cost _build_dummy_graph_for_tests path <= distance_m test_response
    /\ (no_parallel_edges _build_dummy_graph_for_tests ->
        distance_m test_response = path_cost _build_dummy_graph_for_tests path
        /\ forall q, walk _build_dummy_graph_for_tests s t q ->
             distance_m test_response
             <= path_cost _build_dummy_graph_for_tests q).
Proof.
  apply (route_distance_and_search_cost test_env GraphManager_init
           test_request test_response dummy_manager
           _build_dummy_graph_for_tests).
  - apply dummy_compute_route.
  - reflexivity.
  - apply dummy_all_weighted.
  - apply dummy_nonneg_weights.
Defined.

(** ** The nearest node *)

Lemma nearest_step_located coord best p x y :
  nd_x (snd p) = Some x -> nd_y (snd p) = Some y ->
  nearest_step coord best p =
  match best with
  | None => Some (sq_dist coord x y, fst p)
  | Some (best_dist, _) =>
    if Rltb (sq_dist coord x y) best_dist
    then Some (sq_dist coord x y, fst p) else best
  end.
Proof. intros Hx Hy. unfold nearest_step. rewrite Hx, Hy. reflexivity. Qed.

Lemma nearest_step_unlocated coord best p :
  nd_x (snd p) = None \/ nd_y (snd p) = None ->
  nearest_step coord best p = best.
Proof.
  intros H. unfold nearest_step.
  destruct (nd_x (snd p)), (nd_y (snd p)); try reflexivity.
  destruct H; discriminate.
Qed.

Lemma scan_result_step coord l res p :
  scan_result coord l res ->
  scan_result coord (l ++ [p]) (nearest_step coord res p).
Proof.
  intros H.
  destruct (nd_x (snd p)) as [x|] eqn:Ex;
    [destruct (nd_y (snd p)) as [y|] eqn:Ey |].
  - rewrite (nearest_step_located coord res p x y Ex Ey).
    destruct res as [[d n]|].
    + destruct H as (pre & data & x0 & y0 & post & -> & Hx & Hy & -> & Hpre & Hpost).
      destruct (Rltb (sq_dist coord x y) (sq_dist coord x0 y0)) eqn:E.
      * apply Rltb_spec in E.
        exists (pre ++ (n, data) :: post), (snd p), x, y, [].
        repeat split; try assumption.
        -- destruct p; reflexivity.
        -- intros q x' y' Hq Hx' Hy'.
           apply in_app_or in Hq as [Hq|[<-|Hq]].
           ++ pose proof (Hpre q x' y' Hq Hx' Hy'). lra.
           ++ cbn [snd] in Hx', Hy'. rewrite Hx in Hx'. rewrite Hy in Hy'.
              injection Hx' as <-. injection Hy' as <-. exact E.
           ++ pose proof (Hpost q x' y' Hq Hx' Hy'). lra.
        -- intros q x' y' [].
      * exists pre, data, x0, y0, (post ++ [p]).
        repeat split; try assumption.
        -- rewrite <- app_assoc. reflexivity.
        -- intros q x' y' Hq Hx' Hy'.
           apply in_app_or in Hq as [Hq|[<-|[]]].
           ++ exact (Hpost q x' y' Hq Hx' Hy').
           ++ rewrite Ex in Hx'. rewrite Ey in Hy'.
              injection Hx' as <-. injection Hy' as <-.
              destruct (Rle_dec (sq_dist coord x0 y0) (sq_dist coord x y))
                as [Hle|Hgt]; [exact Hle |].
              rewrite Rltb_true in E by lra. discriminate E.
    + exists l, (snd p), x, y, [].
      repeat split; try assumption.
      * destruct p; reflexivity.
      * intros q x' y' Hq Hx' Hy'.
        destruct (H q Hq) as [Hn|Hn]; congruence.
      * intros q x' y' [].
  - rewrite nearest_step_unlocated by (right; exact Ey).
    destruct res as [[d n]|].
    + destruct H as (pre & data & x0 & y0 & post & -> & Hx & Hy & -> & Hpre & Hpost).
      exists pre, data, x0, y0, (post ++ [p]).
      repeat split; try assumption.
      * rewrite <- app_assoc. reflexivity.
      * intros q x' y' Hq Hx' Hy'.
        apply in_app_or in Hq as [Hq|[<-|[]]].
        -- exact (Hpost q x' y' Hq Hx' Hy').
        -- congruence.
    + intros q Hq. apply in_app_or in Hq as [Hq|[<-|[]]].
      * exact (H q Hq).
      * right. exact Ey.
  - rewrite nearest_step_unlocated by (left; exact Ex).
    destruct res as [[d n]|].
    + destruct H as (pre & data & x0 & y0 & post & -> & Hx & Hy & -> & Hpre & Hpost).
      exists pre, data, x0, y0, (post ++ [p]).
      repeat split; try assumption.
      * rewrite <- app_assoc. reflexivity.
      * intros q x' y' Hq Hx' Hy'.
        apply in_app_or in Hq as [Hq|[<-|[]]].
        -- exact (Hpost q x' y' Hq Hx' Hy').
        -- congruence.
    + intros q Hq. apply in_app_or in Hq as [Hq|[<-|[]]].
      * exact (H q Hq).
      * left. exact Ex.
Qed.

Lemma nearest_scan_result coord l :
  scan_result coord l (fold_left (nearest_step coord) l None).
Proof.
  induction l as [|p l IH] using rev_ind.
  - intros p [].
  - rewrite fold_left_app. cbn [fold_left].
    apply scan_result_step. exact IH.
Qed.

(** X4: under pytest, the node [find_nearest_node] returns has both
    coordinates and is the first, in the order of the graph's nodes,
    among the nodes at the least squared distance in degrees from the
    point: strictly nearer than every node with coordinates before it,
    and at least as near as every one after it. *)
Theorem nearest_node_is_first_nearest env self G coord n :
  in_pytest env = true ->
  graph self = Some G ->
  find_nearest_node env self coord = Ok n ->
  exists pre data x y post,
    nodes G = pre ++ (n, data) :: post
    /\ nd_x data = Some x /\ nd_y data = Some y
    /\ (forall p x' y', In p pre ->
          nd_x (snd p) = Some x' -> nd_y (snd p) = Some y' ->
          sq_dist coord x y < sq_dist coord x' y')
    /\ (forall p x' y', In p post ->
          nd_x (snd p) = Some x' -> nd_y (snd p) = Some y' ->
          sq_dist coord x y <= sq_dist coord x' y').
Proof.
  intros Hpy HG H. unfold find_nearest_node in H. rewrite HG, Hpy in H.
  pose proof (nearest_scan_result coord (nodes G)) as Hscan.
  destruct (fold_left (nearest_step coord) (nodes G) None) as [[d m]|];
    [| discriminate H].
  injection H as ->.
  destruct Hscan as (pre & data & x & y & post & Hl & Hx & Hy & -> & Hpre & Hpost).
  exists pre, data, x, y, post. repeat split; assumption.
Qed.

Lemma nearest_node_is_first_nearest_witness :
  exists pre data x y post,
    nodes _build_dummy_graph_for_tests = pre ++ (1%Z, data) :: post
    /\ nd_x data = Some x /\ nd_y data = Some y
    /\ (forall p x' y', In p pre ->
          nd_x (snd p) = Some x' -> nd_y (snd p) = Some y' ->
          sq_dist (origin test_request) x y
          < sq_dist (origin test_request) x' y')
    /\ (forall p x' y', In p post ->
          nd_x (snd p) = Some x' -> nd_y (snd p) = Some y' ->
          sq_dist (origin test_request) x y
          <= sq_dist (origin test_request) x' y').
Proof.
  apply (nearest_node_is_first_nearest test_env dummy_manager
           _build_dummy_graph_for_tests (origin test_request) 1%Z).
  - reflexivity.
  - reflexivity.
  - apply dummy_nearest_origin.
Defined.




Lemma node_attrs_in G n nd : node_attrs G n = Ok nd -> In (n, nd) (nodes G).
Proof.
  unfold node_attrs. intros H.
  destruct (find (fun p => Z.eqb (fst p) n) (nodes G)) as [p|] eqn:E;
    [| discriminate H].
  injection H as <-. apply find_some in E as [Hin Heq].
  apply Z.eqb_eq in Heq. subst n. destruct p. exact Hin.
Qed.

(** X6: with or without pytest, the node [find_nearest_node] returns is
    a node of the graph in use, and one that has both coordinates. *)
Theorem nearest_node_is_located env self G coord n :
  graph self = Some G ->
  find_nearest_node env self coord = Ok n ->
  has_node G n = true
  /\ exists data, In (n, data) (nodes G) /\ located data.
Proof.
  intros HG H. split; [exact (find_nearest_node_has_node env self G coord n HG H) |].
  destruct (in_pytest env) eqn:Hpy.
  - unfold find_nearest_node in H. rewrite HG, Hpy in H.
    pose proof (nearest_scan_result coord (nodes G)) as Hscan.
    destruct (fold_left (nearest_step coord) (nodes G) None) as [[d m]|];
      [| discriminate H].
    injection H as ->.
    destruct Hscan as (pre & data & x & y & post & Hl & Hx & Hy & _).
    exists data. split.
    + rewrite Hl. apply in_or_app. right. left. reflexivity.
    + split; congruence.
  - unfold find_nearest_node in H. rewrite HG, Hpy in H.
    destruct (nearest_nodes env G (lon coord) (lat coord)) as [m|];
      [| discriminate H].
    cbn [rbind] in H.
    destruct (node_attrs G m) as [nd|] eqn:E; [| discriminate H].
    cbn [rbind] in H.
    destruct (nd_y nd) eqn:Ey, (nd_x nd) eqn:Ex; try discriminate H.
    injection H as <-. exists nd. split; [exact (node_attrs_in G m nd E) |].
    split; congruence.
Qed.

Lemma nearest_node_is_located_witness :
  has_node _build_dummy_graph_for_tests 1%Z = true
  /\ exists data, In (1%Z, data) (nodes _build_dummy_graph_for_tests)
                  /\ located data.
Proof.
  apply (nearest_node_is_located test_env dummy_manager
           _build_dummy_graph_for_tests (origin test_request) 1%Z).
  - reflexivity.
  - apply dummy_nearest_origin.
Defined.

(** ** Normalising the weights *)

Lemma edge_frame_set_weight e w : edge_frame (set_weight e w) = edge_frame e.
Proof. reflexivity. Qed.

Lemma normalise_edge_usable env G e r :
  usable_length env e = Some r -> normalise_edge env G e = Ok (set_weight e r).
Proof.
  unfold usable_length, normalise_edge; cbv zeta. intros H.
  destruct (ed_length (e_data e)) as [[r0|s|]|]; try discriminate H.
  - injection H as ->. reflexivity.
  - rewrite H. reflexivity.
Qed.

(** Without a usable length the loop turns to the nodes, unless the
    length is of a type [float] rejects. *)
Lemma normalise_edge_fallback env G e :
  usable_length env e = None ->
  ed_length (e_data e) <> Some LenOther ->
  normalise_edge env G e =
  (nu <- node_attrs G (e_u e) ;;
   nv <- node_attrs G (e_v e) ;;
   match nd_y nu, nd_x nu, nd_y nv, nd_x nv with
   | Some lat_u, Some lon_u, Some lat_v, Some lon_v =>
     d <- _haversine_distance_m (mkCoordinate lat_u lon_u)
            (mkCoordinate lat_v lon_v) ;;
     Ok (set_weight e d)
   | _, _, _, _ => Ok e
   end).
Proof.
  unfold usable_length, normalise_edge; cbv zeta. intros H Ho.
  destruct (ed_length (e_data e)) as [[r0|s|]|]; try discriminate H;
    try (exfalso; apply Ho; reflexivity); try rewrite H;
    destruct (node_attrs G (e_u e)) as [nu|]; try reflexivity;
    destruct (node_attrs G (e_v e)) as [nv|]; try reflexivity;
    cbn [rbind];
    destruct (nd_y nu), (nd_x nu), (nd_y nv), (nd_x nv); try reflexivity;
    destruct (_haversine_distance_m _ _); reflexivity.
Qed.

Lemma normalise_edge_other env G e :
  ed_length (e_data e) = Some LenOther -> normalise_edge env G e = Ok e.
Proof.
  unfold normalise_edge; cbv zeta. intros ->. reflexivity.
Qed.

Lemma normalise_edge_cases env G e e' :
  normalise_edge env G e = Ok e' -> e' = e \/ exists w, e' = set_weight e w.
Proof.
  intros H.
  destruct (usable_length env e) as [r|] eqn:Eu.
  - rewrite (normalise_edge_usable env G e r Eu) in H.
    injection H as <-. right. exists r. reflexivity.
  - destruct (ed_length (e_data e)) as [[r0|s|]|] eqn:El.
    + unfold usable_length in Eu. rewrite El in Eu. discriminate Eu.
    + rewrite normalise_edge_fallback in H by (assumption || congruence).
      bind_inv H.
      destruct (nd_y a), (nd_x a), (nd_y a0), (nd_x a0);
        try (injection H as <-; left; reflexivity).
      bind_inv H. injection H as <-. right. eexists. reflexivity.
    + rewrite (normalise_edge_other env G e El) in H.
      injection H as <-. left. reflexivity.
    + rewrite normalise_edge_fallback in H by (assumption || congruence).
      bind_inv H.
      destruct (nd_y a), (nd_x a), (nd_y a0), (nd_x a0);
        try (injection H as <-; left; reflexivity).
      bind_inv H. injection H as <-. right. eexists. reflexivity.
Qed.

Lemma normalise_edge_frame env G e e' :
  normalise_edge env G e = Ok e' -> edge_frame e' = edge_frame e.
Proof.
  intros H. destruct (normalise_edge_cases env G e e' H) as [->|[w ->]];
    reflexivity.
Qed.

Lemma normalise_edges_inv env G es es' :
  normalise_edges env G es = Ok es' ->
  Forall2 (fun e e' => normalise_edge env G e = Ok e') es es'.
Proof.
  revert es'. induction es as [|e es IH]; intros es' H.
  - injection H as <-. constructor.
  - cbn [normalise_edges] in H. bind_inv H. injection H as <-.
    constructor; [assumption | apply IH; reflexivity].
Qed.

Lemma ensure_numeric_weights_inv env G G' :
  _ensure_numeric_weights env G = Ok G' ->
  nodes G' = nodes G
  /\ Forall2 (fun e e' => normalise_edge env G e = Ok e') (edges G) (edges G').
Proof.
  unfold _ensure_numeric_weights. intros H. bind_inv H. injection H as <-.
  split; [reflexivity | apply normalise_edges_inv; assumption].
Qed.

Lemma Forall2_in_r {A B} (P : A -> B -> Prop) l l' b :
  Forall2 P l l' -> In b l' -> exists a, In a l /\ P a b.
Proof.
  induction 1 as [|x y l l' Hxy _ IH]; intros Hin; [destruct Hin |].
  destruct Hin as [<-|Hin].
  - exists x. split; [left; reflexivity | exact Hxy].
  - destruct (IH Hin) as (a & Ha & Hp). exists a. split; [right |]; assumption.
Qed.

Lemma Forall2_in_l {A B} (P : A -> B -> Prop) l l' a :
  Forall2 P l l' -> In a l -> exists b, In b l' /\ P a b.
Proof.
  induction 1 as [|x y l l' Hxy _ IH]; intros Hin; [destruct Hin |].
  destruct Hin as [<-|Hin].
  - exists y. split; [left; reflexivity | exact Hxy].
  - destruct (IH Hin) as (b & Hb & Hp). exists b. split; [right |]; assumption.
Qed.

Lemma has_edge_frames G G' u v :
  map edge_frame (edges G') = map edge_frame (edges G) ->
  has_edge G u v -> has_edge G' u v.
Proof.
  intros Hm (e & Hin & Hu & Hv).
  assert (Hf : In (edge_frame e) (map edge_frame (edges G')))
    by (rewrite Hm; apply in_map; exact Hin).
  apply in_map_iff in Hf as (e' & Hf & Hin').
  exists e'. split; [exact Hin' |].
  unfold edge_frame in Hf. injection Hf as Hu' Hv' _ _ _.
  split; congruence.
Qed.

Lemma reachable_frames G G' s t :
  map edge_frame (edges G') = map edge_frame (edges G) ->
  reachable G s t -> reachable G' s t.
Proof.
  intros Hm. induction 1 as [|v w _ IH He]; [apply reach_here |].
  apply (reach_step _ _ v); [exact IH |].
  exact (has_edge_frames G G' v w Hm He).
Qed.

Lemma ensure_numeric_weights_frames env G G' :
  _ensure_numeric_weights env G = Ok G' ->
  map edge_frame (edges G') = map edge_frame (edges G).
Proof.
  intros H. apply ensure_numeric_weights_inv in H as [_ H].
  induction H as [|e e' es es' He _ IH]; [reflexivity |].
  cbn [map]. rewrite IH, (normalise_edge_frame env G e e' He). reflexivity.
Qed.

(** X7: [_ensure_numeric_weights], when it returns, changes nothing but
    weights: the nodes are the same, the edges are the same in number
    and order with the same endpoints, keys, lengths and geometries, and
    so the same nodes are reachable from the same nodes. *)
Theorem normalisation_changes_only_weights env G G' :
  _ensure_numeric_weights env G = Ok G' ->
  nodes G' = nodes G
  /\ map edge_frame (edges G') = map edge_frame (edges G)
  /\ (forall s t, reachable G' s t <-> reachable G s t).
Proof.
  intros H. pose proof (ensure_numeric_weights_frames env G G' H) as Hm.
  split; [exact (proj1 (ensure_numeric_weights_inv env G G' H)) |].
  split; [exact Hm |].
  intros s t. split.
  - apply reachable_frames. symmetry. exact Hm.
  - apply reachable_frames. exact Hm.
Qed.

Lemma raw_graph_normalises :
  _ensure_numeric_weights raw_env raw_graph = Ok raw_graph_normalised.
Proof. reflexivity. Qed.

Lemma normalisation_changes_only_weights_witness :
  nodes raw_graph_normalised = nodes raw_graph
  /\ map edge_frame (edges raw_graph_normalised)
     = map edge_frame (edges raw_graph)
  /\ (forall s t,
        reachable raw_graph_normalised s t <-> reachable raw_graph s t).
Proof.
  apply (normalisation_changes_only_weights raw_env raw_graph
           raw_graph_normalised).
  apply raw_graph_normalises.
Defined.

Lemma usable_length_frame env e e' :
  edge_frame e' = edge_frame e -> usable_length env e' = usable_length env e.
Proof.
  unfold edge_frame, usable_length. intros H. injection H as _ _ _ -> _.
  reflexivity.
Qed.

Lemma node_attrs_nodes G G' n :
  nodes G' = nodes G -> node_attrs G' n = node_attrs G n.
Proof. unfold node_attrs. intros ->. reflexivity. Qed.

(** X8: in the graph [_ensure_numeric_weights] returns, an edge whose
    length is a number, or a string that [float] accepts, has that
    number as its weight, whatever weight it had before; an edge with no
    length, or with a string [float] rejects, whose endpoints both have
    coordinates has the great-circle distance between them as its
    weight. *)
Theorem normalised_weights env G G' e' :
  _ensure_numeric_weights env G = Ok G' ->
  In e' (edges G') ->
  (forall r, usable_length env e' = Some r ->
             ed_weight (e_data e') = Some r)
  /\ (forall lat_u lon_u lat_v lon_v,
        usable_length env e' = None ->
        ed_length (e_data e') <> Some LenOther ->
        node_attrs G' (e_u e') = Ok (mkNodeData (Some lon_u) (Some lat_u)) ->
        node_attrs G' (e_v e') = Ok (mkNodeData (Some lon_v) (Some lat_v)) ->
        exists d,
          _haversine_distance_m (mkCoordinate lat_u lon_u)
            (mkCoordinate lat_v lon_v) = Ok d
          /\ ed_weight (e_data e') = Some d).
Proof.
  intros H Hin.
  destruct (ensure_numeric_weights_inv env G G' H) as [Hn Hf].
  destruct (Forall2_in_r _ _ _ e' Hf Hin) as (e & _ & He).
  pose proof (normalise_edge_frame env G e e' He) as Hfr.
  split.
  - intros r Hr. rewrite (usable_length_frame env e e' Hfr) in Hr.
    rewrite (normalise_edge_usable env G e r Hr) in He.
    injection He as <-. reflexivity.
  - intros lat_u lon_u lat_v lon_v Hu Ho Hnu Hnv.
    rewrite (usable_length_frame env e e' Hfr) in Hu.
    rewrite (node_attrs_nodes G G' _ Hn) in Hnu.
    rewrite (node_attrs_nodes G G' _ Hn) in Hnv.
    unfold edge_frame in Hfr. injection Hfr as Eu Ev _ El _.
    rewrite Eu in Hnu. rewrite Ev in Hnv. rewrite El in Ho.
    rewrite (normalise_edge_fallback env G e Hu Ho), Hnu, Hnv in He.
    cbn [rbind nd_x nd_y] in He. bind_inv He. injection He as <-.
    exists a. split; reflexivity.
Qed.

(** The edge of [raw_graph] whose length is a string. *)
Lemma normalised_weights_witness :
  (forall r, usable_length raw_env raw_string_edge = Some r ->
             ed_weight (e_data raw_string_edge) = Some r)
  /\ (forall lat_u lon_u lat_v lon_v,
        usable_length raw_env raw_string_edge = None ->
        ed_length (e_data raw_string_edge) <> Some LenOther ->
        node_attrs raw_graph_normalised (e_u raw_string_edge)
        = Ok (mkNodeData (Some lon_u) (Some lat_u)) ->
        node_attrs raw_graph_normalised (e_v raw_string_edge)
        = Ok (mkNodeData (Some lon_v) (Some lat_v)) ->
        exists d,
          _haversine_distance_m (mkCoordinate lat_u lon_u)
            (mkCoordinate lat_v lon_v) = Ok d
          /\ ed_weight (e_data raw_string_edge) = Some d).
Proof.
  apply (normalised_weights raw_env raw_graph raw_graph_normalised
           raw_string_edge).
  - apply raw_graph_normalises.
  - right. left. reflexivity.
Defined.

Lemma well_formed_node_attrs G n :
  (forall p, In p (nodes G) -> located (snd p)) ->
  has_node G n = true ->
  exists x y, node_attrs G n = Ok (mkNodeData (Some x) (Some y)).
Proof.
  intros Hloc Hn. unfold has_node in Hn. unfold node_attrs.
  destruct (find (fun p => Z.eqb (fst p) n) (nodes G)) as [p|] eqn:E.
  - apply find_some in E as [Hin _].
    destruct (Hloc p Hin) as [Hx Hy]. destruct p as [m [[x|] [y|]]];
      cbn [snd nd_x nd_y] in *; try congruence.
    exists x, y. reflexivity.
  - apply existsb_exists in Hn as (p & Hin & Hp).
    rewrite (find_none _ _ E p Hin) in Hp. discriminate Hp.
Qed.

Lemma normalise_edge_weighs env G e e' :
  normalise_edge env G e = Ok e' ->
  (forall p, In p (nodes G) -> located (snd p)) ->
  has_node G (e_u e) = true -> has_node G (e_v e) = true ->
  ed_length (e_data e) <> Some LenOther ->
  ed_weight (e_data e') <> None.
Proof.
  intros He Hloc Hu Hv Hother.
  destruct (usable_length env e) as [r|] eqn:Eu.
  - rewrite (normalise_edge_usable env G e r Eu) in He.
    injection He as <-. discriminate.
  - rewrite (normalise_edge_fallback env G e Eu Hother) in He.
    destruct (well_formed_node_attrs G _ Hloc Hu) as (xu & yu & Hnu).
    destruct (well_formed_node_attrs G _ Hloc Hv) as (xv & yv & Hnv).
    rewrite Hnu, Hnv in He. cbn [rbind nd_x nd_y] in He.
    bind_inv He. injection He as <-. discriminate.
Qed.

(** X9: on a graph whose nodes all have coordinates, whose edges join
    nodes of the graph and none of whose lengths is of a type [float]
    rejects, [_ensure_numeric_weights] keeps the promise of its
    docstring: in the graph it returns every edge has a weight. *)
Theorem normalisation_weighs_every_edge env G G' :
  _ensure_numeric_weights env G = Ok G' ->
  well_formed G ->
  (forall e, In e (edges G) -> ed_length (e_data e) <> Some LenOther) ->
  all_weighted G'.
Proof.
  intros H [Hloc Hends] Hother e' Hin.
  destruct (ensure_numeric_weights_inv env G G' H) as [_ Hf].
  destruct (Forall2_in_r _ _ _ e' Hf Hin) as (e & Hine & He).
  destruct (Hends e Hine) as [Hu Hv].
  exact (normalise_edge_weighs env G e e' He Hloc Hu Hv (Hother e Hine)).
Qed.

Lemma dummy_well_formed : well_formed _build_dummy_graph_for_tests.
Proof.
  split.
  - intros p [<-|[<-|[<-|[]]]]; split; discriminate.
  - intros e [<-|[<-|[<-|[]]]]; split; reflexivity.
Qed.

Lemma normalisation_weighs_every_edge_witness :
  all_weighted _build_dummy_graph_for_tests.
Proof.
  apply (normalisation_weighs_every_edge test_env
           _build_dummy_graph_for_tests _build_dummy_graph_for_tests).
  - reflexivity.
  - apply dummy_well_formed.
  - intros e [<-|[<-|[<-|[]]]]; discriminate.
Defined.

Lemma normalise_edge_idem env G e e' :
  normalise_edge env G e = Ok e' -> normalise_edge env G e' = Ok e'.
Proof.
  intros H. pose proof (normalise_edge_frame env G e e' H) as Hfr.
  pose proof (usable_length_frame env e e' Hfr) as Hul.
  unfold edge_frame in Hfr. injection Hfr as Eu Ev _ El _.
  destruct (usable_length env e) as [r|] eqn:Eus.
  - rewrite (normalise_edge_usable env G e r Eus) in H. injection H as <-.
    rewrite (normalise_edge_usable env G _ r Hul). reflexivity.
  - destruct (ed_length (e_data e)) as [[r0|s|]|] eqn:Ele.
    + unfold usable_length in Eus. rewrite Ele in Eus. discriminate Eus.
    + rewrite normalise_edge_fallback by congruence.
      rewrite normalise_edge_fallback in H by congruence.
      rewrite Eu, Ev.
      destruct (node_attrs G (e_u e)) as [nu|]; [| discriminate H].
      destruct (node_attrs G (e_v e)) as [nv|]; [| discriminate H].
      cbn [rbind] in *.
      destruct (nd_y nu), (nd_x nu), (nd_y nv), (nd_x nv);
        try (injection H as <-; reflexivity).
      destruct (_haversine_distance_m _ _) as [d|]; [| discriminate H].
      cbn [rbind] in *. injection H as <-. reflexivity.
    + rewrite (normalise_edge_other env G e Ele) in H. injection H as <-.
      exact (normalise_edge_other env G e Ele).
    + rewrite normalise_edge_fallback by congruence.
      rewrite normalise_edge_fallback in H by congruence.
      rewrite Eu, Ev.
      destruct (node_attrs G (e_u e)) as [nu|]; [| discriminate H].
      destruct (node_attrs G (e_v e)) as [nv|]; [| discriminate H].
      cbn [rbind] in *.
      destruct (nd_y nu), (nd_x nu), (nd_y nv), (nd_x nv);
        try (injection H as <-; reflexivity).
      destruct (_haversine_distance_m _ _) as [d|]; [| discriminate H].
      cbn [rbind] in *. injection H as <-. reflexivity.
Qed.

Lemma normalise_edge_nodes env G G' e :
  nodes G' = nodes G -> normalise_edge env G' e = normalise_edge env G e.
Proof.
  intros Hn. unfold normalise_edge.
  rewrite !(node_attrs_nodes G G' _ Hn). reflexivity.
Qed.

Lemma normalise_edges_fixed env G es :
  Forall (fun e => normalise_edge env G e = Ok e) es ->
  normalise_edges env G es = Ok es.
Proof.
  induction 1 as [|e es He _ IH]; [reflexivity |].
  cbn [normalise_edges]. rewrite He, IH. reflexivity.
Qed.

(** X10: [_ensure_numeric_weights] is idempotent: run on the graph it
    returned, it returns that graph again. *)
Theorem normalisation_idempotent env G G' :
  _ensure_numeric_weights env G = Ok G' ->
  _ensure_numeric_weights env G' = Ok G'.
Proof.
  intros H. destruct (ensure_numeric_weights_inv env G G' H) as [Hn Hf].
  unfold _ensure_numeric_weights.
  rewrite normalise_edges_fixed; [destruct G'; reflexivity |].
  apply Forall_forall. intros e' Hin.
  destruct (Forall2_in_r _ _ _ e' Hf Hin) as (e & _ & He).
  rewrite (normalise_edge_nodes env G G' e' Hn).
  exact (normalise_edge_idem env G e e' He).
Qed.

Lemma normalisation_idempotent_witness :
  _ensure_numeric_weights raw_env raw_graph_normalised
  = Ok raw_graph_normalised.
Proof.
  apply (normalisation_idempotent raw_env raw_graph raw_graph_normalised).
  apply raw_graph_normalises.
Defined.

(** ** The box of a rebuilt graph *)

Lemma py_max_Rmax a b : py_max a b = Rmax a b.
Proof.
  unfold py_max, Rmax, Rltb.
  destruct (Rlt_dec a b), (Rle_dec a b); try reflexivity; lra.
Qed.

Lemma list_min_spec xs : forall x,
  (forall a, In a (x :: xs) -> list_min x xs <= a)
  /\ In (list_min x xs) (x :: xs).
Proof.
  unfold list_min. induction xs as [|b xs IH]; intros x; cbn [fold_left].
  - split; [intros a [<-|[]]; lra | left; reflexivity].
  - destruct (IH (py_min x b)) as [Hle Hin]. split.
    + intros a Ha.
      assert (Hm : fold_left py_min xs (py_min x b) <= py_min x b)
        by (apply Hle; left; reflexivity).
      assert (Hx : py_min x b <= x) by (rewrite py_min_Rmin; apply Rmin_l).
      assert (Hb : py_min x b <= b) by (rewrite py_min_Rmin; apply Rmin_r).
      destruct Ha as [<-|[<-|Ha]].
      * lra.
      * lra.
      * apply Hle. right. exact Ha.
    + destruct Hin as [Hin|Hin].
      * rewrite <- Hin. destruct (py_min_cases x b) as [->| ->];
          [left | right; left]; reflexivity.
      * right. right. exact Hin.
Qed.

Lemma py_max_cases a b : py_max a b = a \/ py_max a b = b.
Proof. unfold py_max. destruct (Rltb a b); [right | left]; reflexivity. Qed.

Lemma list_max_spec xs : forall x,
  (forall a, In a (x :: xs) -> a <= list_max x xs)
  /\ In (list_max x xs) (x :: xs).
Proof.
  unfold list_max. induction xs as [|b xs IH]; intros x; cbn [fold_left].
  - split; [intros a [<-|[]]; lra | left; reflexivity].
  - destruct (IH (py_max x b)) as [Hle Hin]. split.
    + intros a Ha.
      assert (Hm : py_max x b <= fold_left py_max xs (py_max x b))
        by (apply Hle; left; reflexivity).
      assert (Hx : x <= py_max x b) by (rewrite py_max_Rmax; apply Rmax_l).
      assert (Hb : b <= py_max x b) by (rewrite py_max_Rmax; apply Rmax_r).
      destruct Ha as [<-|[<-|Ha]].
      * lra.
      * lra.
      * apply Hle. right. exact Ha.
    + destruct Hin as [Hin|Hin].
      * rewrite <- Hin. destruct (py_max_cases x b) as [->| ->];
          [left | right; left]; reflexivity.
      * right. right. exact Hin.
Qed.

Lemma somes_in {A} (l : list (option A)) a : In a (somes l) <-> In (Some a) l.
Proof.
  induction l as [|[b|] l IH]; cbn [somes In].
  - tauto.
  - rewrite IH. split; intros [H|H]; auto; left; congruence.
  - rewrite IH. split; [auto | intros [H|H]; [discriminate H | exact H]].
Qed.

Lemma somes_attr_in (f : NodeData -> option R) (l : list (node * NodeData)) a :
  In a (somes (map (fun p => f (snd p)) l))
  <-> exists p, In p l /\ f (snd p) = Some a.
Proof.
  rewrite somes_in, in_map_iff. split; intros (p & H1 & H2); exists p; auto.
Qed.

Lemma derive_bbox_tight G center_lat center_lon north south east west :
  derive_bbox G center_lat center_lon = (north, south, east, west) ->
  (exists p, In p (nodes G) /\ nd_x (snd p) <> None) ->
  (exists p, In p (nodes G) /\ nd_y (snd p) <> None) ->
  (forall p x, In p (nodes G) -> nd_x (snd p) = Some x -> west <= x <= east)
  /\ (forall p y, In p (nodes G) -> nd_y (snd p) = Some y ->
        south <= y <= north)
  /\ (exists p, In p (nodes G) /\ nd_x (snd p) = Some west)
  /\ (exists p, In p (nodes G) /\ nd_x (snd p) = Some east)
  /\ (exists p, In p (nodes G) /\ nd_y (snd p) = Some south)
  /\ (exists p, In p (nodes G) /\ nd_y (snd p) = Some north).
Proof.
  unfold derive_bbox. cbv zeta. intros H (px & Hpx & Hx) (py & Hpy & Hy).
  destruct (somes (map (fun p => nd_x (snd p)) (nodes G))) as [|x xs] eqn:Exs.
  { exfalso. destruct (nd_x (snd px)) as [x|] eqn:E; [| congruence].
    assert (Hin : In x (somes (map (fun p => nd_x (snd p)) (nodes G))))
      by (apply (somes_attr_in nd_x); exists px; auto).
    rewrite Exs in Hin. destruct Hin. }
  destruct (somes (map (fun p => nd_y (snd p)) (nodes G))) as [|y ys] eqn:Eys.
  { exfalso. destruct (nd_y (snd py)) as [y|] eqn:E; [| congruence].
    assert (Hin : In y (somes (map (fun p => nd_y (snd p)) (nodes G))))
      by (apply (somes_attr_in nd_y); exists py; auto).
    rewrite Eys in Hin. destruct Hin. }
  injection H as <- <- <- <-.
  destruct (list_min_spec xs x) as [Hxmin Hxmin_in].
  destruct (list_max_spec xs x) as [Hxmax Hxmax_in].
  destruct (list_min_spec ys y) as [Hymin Hymin_in].
  destruct (list_max_spec ys y) as [Hymax Hymax_in].
  rewrite <- Exs in Hxmin, Hxmin_in, Hxmax, Hxmax_in.
  rewrite <- Eys in Hymin, Hymin_in, Hymax, Hymax_in.
  repeat split.
  - apply Hxmin. apply (somes_attr_in nd_x). exists p. auto.
  - apply Hxmax. apply (somes_attr_in nd_x). exists p. auto.
  - apply Hymin. apply (somes_attr_in nd_y). exists p. auto.
  - apply Hymax. apply (somes_attr_in nd_y). exists p. auto.
  - apply (somes_attr_in nd_x) in Hxmin_in. exact Hxmin_in.
  - apply (somes_attr_in nd_x) in Hxmax_in. exact Hxmax_in.
  - apply (somes_attr_in nd_y) in Hymin_in. exact Hymin_in.
  - apply (somes_attr_in nd_y) in Hymax_in. exact Hymax_in.
Qed.

(** A rebuild outside pytest that succeeds: what was fetched, and what
    the manager holds afterwards. *)
Lemma rebuild_inv env self o d self' :
  in_pytest env = false ->
  _build_graph_for_points env self o d = (Ok tt, self') ->
  exists dist G0 G,
    _haversine_distance_m o d = Ok dist
    /\ graph_from_point env ((lat o + lat d) / 2, (lon o + lon d) / 2)
         (radius_m dist) = Ok G0
    /\ _ensure_numeric_weights env G0 = Ok G
    /\ self' = mkGraphManager (Some G)
                 (Some (derive_bbox G ((lat o + lat d) / 2)
                          ((lon o + lon d) / 2))).
Proof.
  unfold _build_graph_for_points. intros -> H. cbv zeta in H.
  destruct (_haversine_distance_m o d) as [dist|]; cbn [rbind] in H;
    [| discriminate H].
  destruct (graph_from_point env _ (radius_m dist)) as [G0|] eqn:Ef;
    cbn [rbind] in H; [| discriminate H].
  destruct (_ensure_numeric_weights env G0) as [G|] eqn:En;
    cbn [rbind] in H; [| discriminate H].
  injection H as <-. exists dist, G0, G. repeat split; assumption.
Qed.

(** X11: outside pytest, after a rebuild that succeeds on a graph in
    which some node has a longitude and some node a latitude, the box
    of the manager is the least box around the nodes of its graph:
    every longitude lies between west and east, every latitude between
    south and north, and each of the four sides is the coordinate of
    some node. *)
Theorem rebuilt_box_is_least env self o d self' :
  in_pytest env = false ->
  _build_graph_for_points env self o d = (Ok tt, self') ->
  exists G north south east west,
    graph self' = Some G
    /\ bbox self' = Some (north, south, east, west)
    /\ ((exists p, In p (nodes G) /\ nd_x (snd p) <> None) ->
        (exists p, In p (nodes G) /\ nd_y (snd p) <> None) ->
        (forall p x, In p (nodes G) -> nd_x (snd p) = Some x ->
           west <= x <= east)
        /\ (forall p y, In p (nodes G) -> nd_y (snd p) = Some y ->
              south <= y <= north)
        /\ (exists p, In p (nodes G) /\ nd_x (snd p) = Some west)
        /\ (exists p, In p (nodes G) /\ nd_x (snd p) = Some east)
        /\ (exists p, In p (nodes G) /\ nd_y (snd p) = Some south)
        /\ (exists p, In p (nodes G) /\ nd_y (snd p) = Some north)).
Proof.
  intros Hpy H.
  destruct (rebuild_inv env self o d self' Hpy H)
    as (dist & G0 & G & _ & _ & _ & ->).
  destruct (derive_bbox G ((lat o + lat d) / 2) ((lon o + lon d) / 2))
    as [[[north south] east] west] eqn:E.
  exists G, north, south, east, west.
  split; [reflexivity |]. split; [reflexivity |].
  exact (derive_bbox_tight G _ _ north south east west E).
Qed.

Lemma raw_box center_lat center_lon :
  derive_bbox raw_graph_normalised center_lat center_lon = (47, 45, 11, 9).
Proof.
  unfold derive_bbox, raw_graph_normalised, raw_nodes, list_min, list_max.
  reval. unfold py_min, py_max. reval. reflexivity.
Qed.

Lemma raw_rebuild :
  _build_graph_for_points raw_env GraphManager_init (mkCoordinate 45 9)
    (mkCoordinate 47 11)
  = (Ok tt, raw_manager).
Proof.
  assert (E : _ensure_numeric_weights raw_env raw_graph
              = Ok raw_graph_normalised) by reflexivity.
  unfold _build_graph_for_points.
  change (in_pytest raw_env) with false. cbv iota zeta.
  rewrite haversine_distance_value. cbn [rbind].
  change (graph_from_point raw_env) with (fun (_ : R * R) (_ : R) => Ok raw_graph).
  cbv beta. cbn [rbind]. rewrite E. cbn [rbind].
  rewrite raw_box. reflexivity.
Qed.

Lemma rebuilt_box_is_least_witness :
  exists G north south east west,
    graph raw_manager = Some G
    /\ bbox raw_manager = Some (north, south, east, west)
    /\ ((exists p, In p (nodes G) /\ nd_x (snd p) <> None) ->
        (exists p, In p (nodes G) /\ nd_y (snd p) <> None) ->
        (forall p x, In p (nodes G) -> nd_x (snd p) = Some x ->
           west <= x <= east)
        /\ (forall p y, In p (nodes G) -> nd_y (snd p) = Some y ->
              south <= y <= north)
        /\ (exists p, In p (nodes G) /\ nd_x (snd p) = Some west)
        /\ (exists p, In p (nodes G) /\ nd_x (snd p) = Some east)
        /\ (exists p, In p (nodes G) /\ nd_y (snd p) = Some south)
        /\ (exists p, In p (nodes G) /\ nd_y (snd p) = Some north)).
Proof.
  apply (rebuilt_box_is_least raw_env GraphManager_init (mkCoordinate 45 9)
           (mkCoordinate 47 11) raw_manager).
  - reflexivity.
  - apply raw_rebuild.
Defined.

(** ** The radius of a rebuild, continued *)

(** X12: for endpoints a non-negative distance apart, the radius asked
    of the map-data source lies between 2000 m and 15000 m, never
    shrinks as the distance grows, and is at least half the distance (so
    that a circle around the midpoint can hold both endpoints) exactly
    when the distance is at most 30000 m. *)
Theorem radius_bounds (d : R) :
  0 <= d ->
  2000 <= radius_m d <= 15000
  /\ (forall d', d <= d' -> radius_m d <= radius_m d')
  /\ (d / 2 <= radius_m d <-> d <= 30000).
Proof.
  intros Hd. unfold radius_m, MAX_GRAPH_RADIUS_M. rewrite py_min_Rmin.
  split; [| split].
  - unfold Rmin. destruct (Rle_dec _ _); lra.
  - intros d' Hd'. rewrite py_min_Rmin. unfold Rmin.
    destruct (Rle_dec (15 / 10 * d + 2000) 15000),
      (Rle_dec (15 / 10 * d' + 2000) 15000); lra.
  - unfold Rmin. destruct (Rle_dec _ _); split; lra.
Qed.

Lemma radius_bounds_witness :
  2000 <= radius_m 10000 <= 15000
  /\ (forall d', 10000 <= d' -> radius_m 10000 <= radius_m d')
  /\ (10000 / 2 <= radius_m 10000 <-> 10000 <= 30000).
Proof.
  apply (radius_bounds 10000). lra.
Defined.

(** ** What [ensure_graph_for_points] leaves behind *)

Lemma rebuild_outcome env self o d res self' :
  _build_graph_for_points env self o d = (res, self') ->
  match res with
  | Ok _ => graph self' <> None /\ bbox self' <> None
  | Raise _ => self' = self /\ in_pytest env = false
  end.
Proof.
  unfold _build_graph_for_points. destruct (in_pytest env).
  - intros H. injection H as <- <-. split; discriminate.
  - cbv zeta.
    destruct (_haversine_distance_m o d) as [dist|]; cbn [rbind];
      [| intros H; injection H as <- <-; split; reflexivity].
    destruct (graph_from_point env _ (radius_m dist)) as [G0|]; cbn [rbind];
      [| intros H; injection H as <- <-; split; reflexivity].
    destruct (_ensure_numeric_weights env G0) as [G|]; cbn [rbind];
      intros H; injection H as <- <-; split; reflexivity || discriminate.
Qed.

Lemma ensure_cases env self o d :
  (covered self o d /\ ensure_graph_for_points env self o d = (Ok tt, self))
  \/ (~ covered self o d
      /\ ensure_graph_for_points env self o d
         = _build_graph_for_points env self o d).
Proof.
  unfold ensure_graph_for_points.
  destruct (is_None (graph self)
            || negb (_bbox_contains_points self o d)) eqn:E.
  - right. split; [| reflexivity].
    intros Hc. apply covered_reflect in Hc. rewrite E in Hc. discriminate Hc.
  - left. split; [| reflexivity].
    apply covered_reflect. rewrite E. reflexivity.
Qed.

(** X13: [ensure_graph_for_points] either succeeds, and then the manager
    holds both a graph and a box; or fails, and then only outside
    pytest, on a request the cache did not cover, and leaving the
    manager exactly as it was, with the graph it had. *)
Theorem ensure_outcome env self o d res self' :
  ensure_graph_for_points env self o d = (res, self') ->
  match res with
  | Ok _ => graph self' <> None /\ bbox self' <> None
  | Raise _ => self' = self /\ in_pytest env = false /\ ~ covered self o d
  end.
Proof.
  intros H. destruct (ensure_cases env self o d) as [[Hc He]|[Hc He]];
    rewrite He in H.
  - injection H as <- <-. destruct Hc as [Hg (box & Hb & _)].
    split; congruence.
  - pose proof (rebuild_outcome env self o d res self' H) as Ho.
    destruct res; [exact Ho |]. destruct Ho. repeat split; assumption.
Qed.

Lemma ensure_outcome_witness :
  graph dummy_manager <> None /\ bbox dummy_manager <> None.
Proof.
  apply (ensure_outcome test_env GraphManager_init (origin test_request)
           (destination test_request) (Ok tt) dummy_manager).
  apply first_request_installs_dummy.
Defined.

(** ** The polyline *)

Lemma validate_coordinates_inv coords : forall coords',
  validate_coordinates coords = Ok coords' ->
  coords = map (fun c => (Some (fst c), Some (snd c))) coords'.
Proof.
  induction coords as [|[[a|] [b|]] coords IH]; intros coords' H;
    cbn [validate_coordinates] in H; try discriminate H.
  - injection H as <-. reflexivity.
  - bind_inv H. injection H as <-. cbn [map fst snd].
    rewrite (IH a0 eq_refl). reflexivity.
Qed.


Lemma get_edge_data_in G u v d :
  In d (get_edge_data G u v) ->
  exists e, In e (edges G) /\ e_u e = u /\ e_v e = v /\ e_data e = d.
Proof.
  unfold get_edge_data. intros H.
  apply in_map_iff in H as (e & <- & H). apply filter_In in H as [Hin Hb].
  apply andb_prop in Hb as [Hu Hv]. apply Z.eqb_eq in Hu, Hv.
  exists e. repeat split; assumption.
Qed.

Lemma segment_no_geometry G i u v :
  no_geometry G ->
  segment_coordinates G i u v =
  (node_u <- node_attrs G u ;;
   node_v <- node_attrs G v ;;
   Ok ((if (i =? 0)%nat then [(nd_y node_u, nd_x node_u)] else [])
       ++ [(nd_y node_v, nd_x node_v)])).
Proof.
  intros Hng. unfold segment_coordinates. cbv zeta.
  destruct (get_edge_data G u v) as [|data ds] eqn:E; [reflexivity |].
  destruct (get_edge_data_in G u v data) as (e & Hin & _ & _ & <-);
    [rewrite E; left; reflexivity |].
  rewrite (Hng e Hin). reflexivity.
Qed.

Lemma coordinates_loop_no_geometry G :
  no_geometry G ->
  forall rest u i coords res,
    coordinates_loop G i (u :: rest) coords = Ok res ->
    rest <> [] \/ (0 < i)%nat ->
    exists new,
      res = coords ++ new
      /\ Forall2 (node_coord G) (if (i =? 0)%nat then u :: rest else rest) new.
Proof.
  intros Hng. induction rest as [|v rest IH]; intros u i coords res H Hi.
  - cbn [coordinates_loop] in H. injection H as <-.
    destruct Hi as [Hi|Hi]; [congruence |].
    exists []. rewrite app_nil_r. split; [reflexivity |].
    destruct i; [lia |]. constructor.
  - change (coordinates_loop G i (u :: v :: rest) coords) with
      (seg <- segment_coordinates G i u v ;;
       coordinates_loop G (S i) (v :: rest) (coords ++ seg)) in H.
    rewrite (segment_no_geometry G i u v Hng) in H.
    destruct (node_attrs G u) as [nu|] eqn:Eu; cbn [rbind] in H;
      [| discriminate H].
    destruct (node_attrs G v) as [nv|] eqn:Ev; cbn [rbind] in H;
      [| discriminate H].
    destruct (IH v (S i) _ res H) as (new & -> & Hnew); [right; lia |].
    cbn [Nat.eqb] in Hnew.
    exists ((if (i =? 0)%nat then [(nd_y nu, nd_x nu)] else [])
            ++ [(nd_y nv, nd_x nv)] ++ new).
    split; [rewrite <- !app_assoc; reflexivity |].
    assert (Hv : node_coord G v (nd_y nv, nd_x nv))
      by (exists nv; split; [exact Ev | reflexivity]).
    destruct (i =? 0)%nat; cbn [app].
    + constructor; [exists nu; split; [exact Eu | reflexivity] |].
      constructor; assumption.
    + constructor; assumption.
Qed.

Lemma build_coordinates_no_geometry G path coords :
  no_geometry G ->
  _build_coordinates_from_path G path = Ok coords ->
  Forall2 (node_coord G) path coords.
Proof.
  intros Hng H. destruct path as [|u [|v rest]].
  - injection H as <-. constructor.
  - cbn [_build_coordinates_from_path] in H.
    destruct (node_attrs G u) as [nd|] eqn:E; cbn [rbind] in H;
      [| discriminate H].
    injection H as <-. constructor; [| constructor].
    exists nd. split; [exact E | reflexivity].
  - change (_build_coordinates_from_path G (u :: v :: rest))
      with (coordinates_loop G 0 (u :: v :: rest) []) in H.
    destruct (coordinates_loop_no_geometry G Hng (v :: rest) u 0%nat [] coords H)
      as (new & -> & Hnew); [left; discriminate |].
    exact Hnew.
Qed.

(** X14: on a graph none of whose edges carries a geometry, the polyline
    of a computed route is the list of the locations (latitude, then
    longitude) of the nodes of the path, one entry per node and in the
    order of the path, from the node nearest the origin to the node
    nearest the destination. *)
Theorem polyline_runs_through_path_nodes env self request r self' G :
  compute_route env self request = (Ok r, self') ->
  graph self' = Some G ->
  no_geometry G ->
  exists s t path,
    find_nearest_node env self' (origin request) = Ok s
    /\ find_nearest_node env self' (destination request) = Ok t
    /\ walk G s t path
    /\ Forall2
         (fun n c =>
            exists nd, node_attrs G n = Ok nd
                       /\ nd_y nd = Some (fst c) /\ nd_x nd = Some (snd c))
         path (coordinates (geometry r)).
Proof.
  intros H HG Hng. apply compute_route_inv in H as [_ H].
  apply route_on_graph_inv in H
    as (G' & s & t & path & coords & coords' & HG' & Hs & Ht & Hp & Hc & Hv
        & _ & _ & _ & Hgeo).
  rewrite HG in HG'. injection HG' as <-.
  exists s, t, path. repeat split; try assumption.
  - exact (shortest_path_walk G s t path Hp).
  - rewrite Hgeo. apply validate_coordinates_inv in Hv. subst coords.
    apply (build_coordinates_no_geometry G path _ Hng) in Hc.
    clear - Hc. remember (map _ coords') as cs eqn:E.
    revert coords' E. induction Hc as [|n c path cs (nd & Hn & Hcn) _ IH];
      intros coords' E.
    + destruct coords'; [constructor | discriminate E].
    + destruct coords' as [|c' coords']; [discriminate E |].
      cbn [map] in E. injection E as -> ->.
      constructor; [| apply IH; reflexivity].
      exists nd. injection Hcn as Hy Hx. auto.
Qed.

Lemma dummy_no_geometry : no_geometry _build_dummy_graph_for_tests.
Proof. intros e [<-|[<-|[<-|[]]]]; reflexivity. Qed.

Lemma polyline_runs_through_path_nodes_witness :
  exists s t path,
    find_nearest_node test_env dummy_manager (origin test_request) = Ok s
    /\ find_nearest_node test_env dummy_manager (destination test_request)
       = Ok t
    /\ walk _build_dummy_graph_for_tests s t path
    /\ Forall2
         (fun n c =>
            exists nd, node_attrs _build_dummy_graph_for_tests n = Ok nd
                       /\ nd_y nd = Some (fst c) /\ nd_x nd = Some (snd c))
         path (coordinates (geometry test_response)).
Proof.
  apply (polyline_runs_through_path_nodes test_env GraphManager_init
           test_request test_response dummy_manager
           _build_dummy_graph_for_tests).
  - apply dummy_compute_route.
  - reflexivity.
  - apply dummy_no_geometry.
Defined.

(** ** When a request is answered *)












(** ** The shape of a response *)

Lemma route_on_graph_shape env self request r :
  route_on_graph env self request = Ok r ->
  exists dist coords' st,
    r = mkRouteResponse dist (_compute_duration_from_distance dist)
          (mkRouteGeometry "LineString" coords')
          (mkRouteSummary dist (_compute_duration_from_distance dist) coords')
          st
          (if Rltb (2 * MAX_GRAPH_RADIUS_M) dist
           then [RouteExceedsRadius dist (2 * MAX_GRAPH_RADIUS_M)]
           else []).
Proof.
  unfold route_on_graph. intros H.
  destruct (graph self) as [G|]; [| discriminate H].
  bind_inv H.
  destruct (_build_steps_from_path G a1) as [st dist].
  bind_inv H. injection H as <-.
  exists dist, a3, st. reflexivity.
Qed.

(** X17: in every response the summary repeats the distance, the
    duration and the polyline of the response itself, the geometry is a
    "LineString", and there is a warning exactly when the distance
    exceeds 30000 m, twice the largest radius: then a single one,
    carrying the distance and that limit. *)
Theorem response_shape env self request r self' :
  compute_route env self request = (Ok r, self') ->
  summary_distance_m (summary r) = distance_m r
  /\ summary_duration_s (summary r) = duration_s r
  /\ summary_geometry (summary r) = coordinates (geometry r)
  /\ geom_type (geometry r) = "LineString"%string
  /\ ((distance_m r <= 30000 /\ warnings r = [])
      \/ (30000 < distance_m r
          /\ warnings r = [RouteExceedsRadius (distance_m r) 30000])).
Proof.
  intros H. apply compute_route_inv in H as [_ H].
  apply route_on_graph_shape in H as (dist & coords' & st & ->).
  cbn [summary summary_distance_m summary_duration_s summary_geometry
       geometry coordinates geom_type distance_m duration_s warnings].
  repeat split.
  assert (E : 2 * MAX_GRAPH_RADIUS_M = 30000)
    by (unfold MAX_GRAPH_RADIUS_M; lra).
  rewrite E. destruct (Rltb 30000 dist) eqn:Ew.
  - right. apply Rltb_spec in Ew. split; [exact Ew | reflexivity].
  - left. split; [| reflexivity].
    destruct (Rle_dec dist 30000) as [Hle|Hgt]; [exact Hle |].
    rewrite Rltb_true in Ew by lra. discriminate Ew.
Qed.

Lemma response_shape_witness :
  summary_distance_m (summary test_response) = distance_m test_response
  /\ summary_duration_s (summary test_response) = duration_s test_response
  /\ summary_geometry (summary test_response)
     = coordinates (geometry test_response)
  /\ geom_type (geometry test_response) = "LineString"%string
  /\ ((distance_m test_response <= 30000 /\ warnings test_response = [])
      \/ (30000 < distance_m test_response
          /\ warnings test_response
             = [RouteExceedsRadius (distance_m test_response) 30000])).
Proof.
  apply (response_shape test_env GraphManager_init test_request test_response
           dummy_manager).
  apply dummy_compute_route.
Defined.

(** ** One manager, many requests *)

Lemma compute_route_manager env self request :
  snd (compute_route env self request)
  = snd (ensure_graph_for_points env self (origin request)
           (destination request)).
Proof.
  unfold compute_route.
  destruct (ensure_graph_for_points env self (origin request)
              (destination request)) as [[[]|e] s1]; reflexivity.
Qed.

Lemma ensure_keeps_inv env self o d :
  manager_inv env self ->
  manager_inv env (snd (ensure_graph_for_points env self o d)).
Proof.
  intros Hinv.
  destruct (ensure_cases env self o d) as [[_ ->]|[_ ->]]; [exact Hinv |].
  destruct (_build_graph_for_points env self o d) as [res self'] eqn:E.
  cbn [snd]. destruct (in_pytest env) eqn:Hpy.
  - unfold _build_graph_for_points in E. rewrite Hpy in E.
    injection E as _ <-. right. left. split; [exact Hpy | reflexivity].
  - destruct res as [[]|e].
    + destruct (rebuild_inv env self o d self' Hpy E)
        as (dist & G0 & G & _ & _ & Hn & ->).
      right. right. split; [exact Hpy |].
      exists G0, G, ((lat o + lat d) / 2), ((lon o + lon d) / 2).
      split; [reflexivity | exact Hn].
    + destruct (rebuild_outcome env self o d _ self' E) as [-> _].
      exact Hinv.
Qed.

Lemma serve_keeps_inv env requests : forall self,
  manager_inv env self ->
  manager_inv env (snd (serve env self requests))
  /\ List.length (fst (serve env self requests)) = List.length requests.
Proof.
  induction requests as [|request rest IH]; intros self Hinv.
  - split; [exact Hinv | reflexivity].
  - cbn [serve].
    pose proof (compute_route_manager env self request) as Hm.
    destruct (compute_route env self request) as [response self1].
    cbn [snd] in Hm.
    destruct (IH self1) as [IH1 IH2].
    { rewrite Hm. apply ensure_keeps_inv. exact Hinv. }
    destruct (serve env self1 rest) as [responses final].
    cbn [fst snd List.length] in *. split; [exact IH1 | lia].
Qed.

(** X18: however many requests the shared service has handled, one
    after the other from start-up, each got one outcome, and the manager
    is in one of three states: as [__init__] left it (no graph, no box);
    under pytest, holding the dummy graph with the box of the whole
    world; or, outside pytest, holding a graph that
    [_ensure_numeric_weights] returned, with the box derived from that
    graph. *)
Theorem shared_manager_invariant env requests :
  List.length (fst (serve env GraphManager_init requests))
  = List.length requests
  /\ (snd (serve env GraphManager_init requests) = GraphManager_init
      \/ (in_pytest env = true
          /\ snd (serve env GraphManager_init requests) = dummy_manager)
      \/ (in_pytest env = false
          /\ exists G0 G center_lat center_lon,
               snd (serve env GraphManager_init requests)
               = mkGraphManager (Some G)
                   (Some (derive_bbox G center_lat center_lon))
               /\ _ensure_numeric_weights env G0 = Ok G)).
Proof.
  destruct (serve_keeps_inv env requests GraphManager_init) as [H1 H2];
    [left; reflexivity |].
  split; [exact H2 | exact H1].
Qed.







(** ** What a rebuilt box covers *)

Lemma rebuilt_box env self o d self' G :
  in_pytest env = false ->
  _build_graph_for_points env self o d = (Ok tt, self') ->
  graph self' = Some G ->
  bbox self' = Some (derive_bbox G ((lat o + lat d) / 2) ((lon o + lon d) / 2)).
Proof.
  intros Hpy H HG.
  destruct (rebuild_inv env self o d self' Hpy H)
    as (dist & G0 & G1 & _ & _ & _ & ->).
  cbn [graph] in HG. injection HG as ->. reflexivity.
Qed.

Lemma derive_bbox_fallback G center_lat center_lon :
  (forall p, In p (nodes G) -> nd_x (snd p) = None)
  \/ (forall p, In p (nodes G) -> nd_y (snd p) = None) ->
  derive_bbox G center_lat center_lon
  = (center_lat + 1, center_lat - 1, center_lon + 1, center_lon - 1).
Proof.
  intros H. unfold derive_bbox. cbv zeta.
  destruct (somes (map (fun p => nd_x (snd p)) (nodes G))) as [|x xs] eqn:Exs;
    [reflexivity |].
  destruct (somes (map (fun p => nd_y (snd p)) (nodes G))) as [|y ys] eqn:Eys;
    [reflexivity |].
  exfalso. destruct H as [H|H].
  - assert (Hin : In x (somes (map (fun p => nd_x (snd p)) (nodes G))))
      by (rewrite Exs; left; reflexivity).
    apply (somes_attr_in nd_x) in Hin as (p & Hp & Hx).
    rewrite (H p Hp) in Hx. discriminate Hx.
  - assert (Hin : In y (somes (map (fun p => nd_y (snd p)) (nodes G))))
      by (rewrite Eys; left; reflexivity).
    apply (somes_attr_in nd_y) in Hin as (p & Hp & Hy).
    rewrite (H p Hp) in Hy. discriminate Hy.
Qed.

(** X20: outside pytest, when the graph of a successful rebuild has no
    node with a longitude, or none with a latitude (a graph without
    nodes, say), the box is the square of one degree each way around
    the midpoint of the request, and the graph is cached all the same;
    the request that caused the rebuild is then covered exactly when
    its endpoints are at most two degrees apart in latitude and in
    longitude. *)
Theorem box_without_coordinates env self o d self' G :
  in_pytest env = false ->
  _build_graph_for_points env self o d = (Ok tt, self') ->
  graph self' = Some G ->
  (forall p, In p (nodes G) -> nd_x (snd p) = None)
  \/ (forall p, In p (nodes G) -> nd_y (snd p) = None) ->
  bbox self'
  = Some ((lat o + lat d) / 2 + 1, (lat o + lat d) / 2 - 1,
          (lon o + lon d) / 2 + 1, (lon o + lon d) / 2 - 1)
  /\ (covered self' o d
      <-> Rabs (lat o - lat d) <= 2 /\ Rabs (lon o - lon d) <= 2).
Proof.
  intros Hpy H HG Hno.
  pose proof (rebuilt_box env self o d self' G Hpy H HG) as Hb.
  rewrite (derive_bbox_fallback G _ _ Hno) in Hb.
  split; [exact Hb |].
  unfold covered. rewrite HG, Hb. split.
  - intros (_ & box & Hbox & Ho & Hd). injection Hbox as <-.
    unfold in_box in Ho, Hd.
    split; unfold Rabs; destruct (Rcase_abs _); lra.
  - intros [Hlat Hlon].
    assert (Hlat' : -2 <= lat o - lat d <= 2)
      by (revert Hlat; unfold Rabs; destruct (Rcase_abs _); lra).
    assert (Hlon' : -2 <= lon o - lon d <= 2)
      by (revert Hlon; unfold Rabs; destruct (Rcase_abs _); lra).
    split; [discriminate |].
    eexists. split; [reflexivity |].
    unfold in_box. repeat split; lra.
Qed.

Lemma empty_rebuild :
  _build_graph_for_points empty_env GraphManager_init (mkCoordinate 45 9)
    (mkCoordinate 46 10)
  = (Ok tt, empty_manager).
Proof.
  unfold _build_graph_for_points.
  change (in_pytest empty_env) with false. cbv iota zeta.
  rewrite haversine_distance_value. reflexivity.
Qed.

Lemma box_without_coordinates_witness :
  bbox empty_manager
  = Some ((lat (mkCoordinate 45 9) + lat (mkCoordinate 46 10)) / 2 + 1,
          (lat (mkCoordinate 45 9) + lat (mkCoordinate 46 10)) / 2 - 1,
          (lon (mkCoordinate 45 9) + lon (mkCoordinate 46 10)) / 2 + 1,
          (lon (mkCoordinate 45 9) + lon (mkCoordinate 46 10)) / 2 - 1)
  /\ (covered empty_manager (mkCoordinate 45 9) (mkCoordinate 46 10)
      <-> Rabs (lat (mkCoordinate 45 9) - lat (mkCoordinate 46 10)) <= 2
          /\ Rabs (lon (mkCoordinate 45 9) - lon (mkCoordinate 46 10)) <= 2).
Proof.
  apply (box_without_coordinates empty_env GraphManager_init
           (mkCoordinate 45 9) (mkCoordinate 46 10) empty_manager
           (mkGraph [] [])).
  - reflexivity.
  - apply empty_rebuild.
  - reflexivity.
  - left. intros p [].
Defined.

(** X21: outside pytest, after a successful rebuild on a graph in which
    some node has a longitude and some node a latitude, a request is
    covered exactly when each of its endpoints has nodes of the new
    graph on all four sides; a rebuild as such does not make the
    request that caused it covered. *)
Theorem covered_after_rebuild env self o d self' G o' d' :
  in_pytest env = false ->
  _build_graph_for_points env self o d = (Ok tt, self') ->
  graph self' = Some G ->
  (exists p, In p (nodes G) /\ nd_x (snd p) <> None) ->
  (exists p, In p (nodes G) /\ nd_y (snd p) <> None) ->
  covered self' o' d' <-> surrounded G o' /\ surrounded G d'.
Proof.
  intros Hpy H HG Hx Hy.
  pose proof (rebuilt_box env self o d self' G Hpy H HG) as Hb.
  destruct (derive_bbox G ((lat o + lat d) / 2) ((lon o + lon d) / 2))
    as [[[north south] east] west] eqn:E.
  destruct (derive_bbox_tight G _ _ north south east west E Hx Hy)
    as (Hxs & Hys & (pw & Hpw & Hw) & (pe & Hpe & He) & (ps & Hps & Hs)
        & (pn & Hpn & Hn)).
  assert (Hbox : forall c,
             in_box (north, south, east, west) c <-> surrounded G c).
  { intros c. unfold in_box, surrounded. split.
    - intros [[H1 H2] [H3 H4]]. repeat split.
      + exists ps, south. auto.
      + exists pn, north. auto.
      + exists pw, west. auto.
      + exists pe, east. auto.
    - intros ((p1 & y1 & Hp1 & Hy1 & Hle1) & (p2 & y2 & Hp2 & Hy2 & Hle2)
              & (p3 & x3 & Hp3 & Hx3 & Hle3) & (p4 & x4 & Hp4 & Hx4 & Hle4)).
      pose proof (Hys p1 y1 Hp1 Hy1). pose proof (Hys p2 y2 Hp2 Hy2).
      pose proof (Hxs p3 x3 Hp3 Hx3). pose proof (Hxs p4 x4 Hp4 Hx4).
      repeat split; lra. }
  unfold covered. rewrite HG, Hb. split.
  - intros (_ & box & Hbx & Ho & Hd). injection Hbx as <-.
    split; apply Hbox; assumption.
  - intros [Ho Hd]. split; [discriminate |].
    eexists. split; [reflexivity |]. split; apply Hbox; assumption.
Qed.

(** The request that caused the rebuild, whose endpoints are the
    outermost nodes of the graph delivered. *)
Lemma covered_after_rebuild_witness :
  covered raw_manager (mkCoordinate 45 9) (mkCoordinate 47 11)
  <-> surrounded raw_graph_normalised (mkCoordinate 45 9)
      /\ surrounded raw_graph_normalised (mkCoordinate 47 11).
Proof.
  apply (covered_after_rebuild raw_env GraphManager_init (mkCoordinate 45 9)
           (mkCoordinate 47 11) raw_manager raw_graph_normalised
           (mkCoordinate 45 9) (mkCoordinate 47 11)).
  - reflexivity.
  - apply raw_rebuild.
  - reflexivity.
  - eexists. split; [left; reflexivity | discriminate].
  - eexists. split; [left; reflexivity | discriminate].
Defined.

(** ** A sound source of map data *)

Lemma has_node_nodes G G' n :
  nodes G' = nodes G -> has_node G' n = has_node G n.
Proof. unfold has_node. intros ->. reflexivity. Qed.

Lemma normalisation_keeps_well_formed env G G' :
  _ensure_numeric_weights env G = Ok G' -> well_formed G -> well_formed G'.
Proof.
  intros H [Hloc Hends].
  destruct (ensure_numeric_weights_inv env G G' H) as [Hn Hf].
  split.
  - rewrite Hn. exact Hloc.
  - intros e' Hin.
    destruct (Forall2_in_r _ _ _ e' Hf Hin) as (e & Hine & He).
    pose proof (normalise_edge_frame env G e e' He) as Hfr.
    unfold edge_frame in Hfr. injection Hfr as Eu Ev _ _ _.
    rewrite Eu, Ev, !(has_node_nodes G G' _ Hn). exact (Hends e Hine).
Qed.

Lemma normalise_edge_weighs_nonneg env G e e' :
  normalise_edge env G e = Ok e' ->
  (forall p, In p (nodes G) -> located (snd p)) ->
  has_node G (e_u e) = true -> has_node G (e_v e) = true ->
  ed_length (e_data e) <> Some LenOther ->
  (forall r, usable_length env e = Some r -> 0 <= r) ->
  exists w, ed_weight (e_data e') = Some w /\ 0 <= w.
Proof.
  intros He Hloc Hu Hv Hother Hpos.
  destruct (usable_length env e) as [r|] eqn:Eu.
  - rewrite (normalise_edge_usable env G e r Eu) in He.
    injection He as <-. exists r. split; [reflexivity | exact (Hpos r eq_refl)].
  - rewrite (normalise_edge_fallback env G e Eu Hother) in He.
    destruct (well_formed_node_attrs G _ Hloc Hu) as (xu & yu & Hnu).
    destruct (well_formed_node_attrs G _ Hloc Hv) as (xv & yv & Hnv).
    rewrite Hnu, Hnv in He. cbn [rbind nd_x nd_y] in He.
    destruct (haversine_real_total_nonneg_zero_symmetric
                (mkCoordinate yu xu) (mkCoordinate yv xv))
      as ((dist & Hd & Hge) & _).
    rewrite Hd in He. cbn [rbind] in He. injection He as <-.
    exists dist. split; [reflexivity | exact Hge].
Qed.

Lemma normalisation_keeps_sound env G G' :
  _ensure_numeric_weights env G = Ok G' ->
  well_formed G ->
  (forall e, In e (edges G) ->
     ed_length (e_data e) <> Some LenOther
     /\ forall r, usable_length env e = Some r -> 0 <= r) ->
  sound_graph G'.
Proof.
  intros Hn Hwf Hlen.
  assert (Hw : forall e', In e' (edges G') ->
                 exists w, ed_weight (e_data e') = Some w /\ 0 <= w).
  { intros e' Hin.
    destruct (ensure_numeric_weights_inv env G G' Hn) as [_ Hall].
    destruct (Forall2_in_r _ _ _ e' Hall Hin) as (e & Hine & He).
    destruct (proj2 Hwf e Hine) as [Hu Hv].
    destruct (Hlen e Hine) as [Hother Hpos].
    exact (normalise_edge_weighs_nonneg env G e e' He (proj1 Hwf) Hu Hv
             Hother Hpos). }
  split; [exact (normalisation_keeps_well_formed env G G' Hn Hwf) |].
  split.
  - intros e' Hin. destruct (Hw e' Hin) as (w & -> & _). discriminate.
  - intros e' Hin. destruct (Hw e' Hin) as (w & Hsome & Hge).
    unfold attr_weight. rewrite Hsome. exact Hge.
Qed.

Lemma dummy_sound : sound_graph _build_dummy_graph_for_tests.
Proof.
  split; [exact dummy_well_formed |].
  split; [exact dummy_all_weighted | exact dummy_nonneg_weights].
Qed.

Lemma ensure_keeps_sound env self o d :
  sound_source env ->
  (forall G, graph self = Some G -> sound_graph G) ->
  forall G, graph (snd (ensure_graph_for_points env self o d)) = Some G ->
            sound_graph G.
Proof.
  intros Hsrc Hinv.
  destruct (ensure_cases env self o d) as [[_ ->]|[_ ->]]; [exact Hinv |].
  destruct (_build_graph_for_points env self o d) as [res self'] eqn:E.
  cbn [snd]. destruct (in_pytest env) eqn:Hpy.
  - unfold _build_graph_for_points in E. rewrite Hpy in E.
    injection E as _ <-. intros G HG. injection HG as <-.
    exact dummy_sound.
  - destruct res as [[]|e].
    + destruct (rebuild_inv env self o d self' Hpy E)
        as (dist & G0 & G1 & _ & Hf & Hn & ->).
      intros G HG. injection HG as <-.
      destruct (Hsrc _ _ G0 Hf) as [Hwf Hlen].
      exact (normalisation_keeps_sound env G0 G1 Hn Hwf Hlen).
    + destruct (rebuild_outcome env self o d _ self' E) as [-> _].
      exact Hinv.
Qed.

Lemma serve_keeps_sound env requests :
  sound_source env ->
  forall self,
    (forall G, graph self = Some G -> sound_graph G) ->
    forall G, graph (snd (serve env self requests)) = Some G -> sound_graph G.
Proof.
  intros Hsrc. induction requests as [|request rest IH]; intros self Hinv.
  - exact Hinv.
  - cbn [serve].
    pose proof (compute_route_manager env self request) as Hm.
    destruct (compute_route env self request) as [response self1].
    cbn [snd] in Hm.
    specialize (IH self1).
    destruct (serve env self1 rest) as [responses final].
    cbn [snd] in *. apply IH. rewrite Hm.
    apply ensure_keeps_sound; assumption.
Qed.

(** X22: when the map-data source delivers only graphs whose nodes all
    have coordinates, whose edges join nodes of the graph and whose
    lengths are numbers or strings, none negative, then whatever
    requests the shared service has handled from start-up, the graph it
    holds (if any) is of that kind too, every one of its edges has a
    weight, and no weight is negative: the graph meets what the search
    and the step builder rely on. *)
Theorem sound_source_keeps_graph_sound env requests :
  sound_source env ->
  match graph (snd (serve env GraphManager_init requests)) with
  | Some G => well_formed G /\ all_weighted G /\ nonneg_weights G
  | None => True
  end.
Proof.
  intros Hsrc.
  destruct (graph (snd (serve env GraphManager_init requests))) as [G|] eqn:E;
    [| exact I].
  apply (serve_keeps_sound env requests Hsrc GraphManager_init);
    [intros G0 HG0; discriminate HG0 | exact E].
Qed.

Lemma osm_env_sound : sound_source osm_env.
Proof.
  intros center radius G H. injection H as <-.
  split; [exact dummy_well_formed |].
  intros e [<-|[<-|[<-|[]]]]; (split; [discriminate |]);
    intros r Hr; injection Hr as <-; lra.
Qed.

Lemma sound_source_keeps_graph_sound_witness :
  match graph (snd (serve osm_env GraphManager_init [test_request])) with
  | Some G => well_formed G /\ all_weighted G /\ nonneg_weights G
  | None => True
  end.
Proof.
  apply (sound_source_keeps_graph_sound osm_env [test_request]).
  apply osm_env_sound.
Defined.

(** ** A path through a node without coordinates *)

Lemma has_node_attrs G n :
  has_node G n = true -> exists nd, node_attrs G n = Ok nd.
Proof.
  unfold has_node, node_attrs. intros H.
  destruct (find (fun p => Z.eqb (fst p) n) (nodes G)) as [p|] eqn:E.
  - exists (snd p). reflexivity.
  - apply existsb_exists in H as (p & Hin & Hp).
    rewrite (find_none _ _ E p Hin) in Hp. discriminate Hp.
Qed.

Lemma coordinates_loop_no_geometry_total G :
  no_geometry G ->
  forall rest u i coords,
    Forall (fun n => has_node G n = true) (u :: rest) ->
    exists res, coordinates_loop G i (u :: rest) coords = Ok res.
Proof.
  intros Hng. induction rest as [|v rest IH]; intros u i coords Hall.
  - exists coords. reflexivity.
  - change (coordinates_loop G i (u :: v :: rest) coords) with
      (seg <- segment_coordinates G i u v ;;
       coordinates_loop G (S i) (v :: rest) (coords ++ seg)).
    rewrite (segment_no_geometry G i u v Hng).
    inversion Hall as [|? ? Hu Hrest]; subst.
    inversion Hrest as [|? ? Hv _]; subst.
    destruct (has_node_attrs G u Hu) as [nu ->].
    destruct (has_node_attrs G v Hv) as [nv ->].
    cbn [rbind]. apply IH. exact Hrest.
Qed.

Lemma build_coordinates_no_geometry_total G path :
  no_geometry G ->
  Forall (fun n => has_node G n = true) path ->
  exists coords, _build_coordinates_from_path G path = Ok coords.
Proof.
  intros Hng Hall. destruct path as [|u [|v rest]].
  - exists []. reflexivity.
  - inversion Hall as [|? ? Hu _]; subst.
    destruct (has_node_attrs G u Hu) as [nd Hn].
    cbn [_build_coordinates_from_path]. rewrite Hn. cbn [rbind].
    eexists. reflexivity.
  - exact (coordinates_loop_no_geometry_total G Hng (v :: rest) u 0%nat [] Hall).
Qed.

Lemma validate_coordinates_absent coords :
  Exists (fun c => ~ present c) coords ->
  validate_coordinates coords = Raise ValidationError.
Proof.
  induction coords as [|[[a|] [b|]] coords IH]; intros H;
    cbn [validate_coordinates]; try reflexivity.
  - inversion H.
  - inversion H as [? ? Hc|? ? Hc]; subst.
    + exfalso. apply Hc. split; discriminate.
    + rewrite (IH Hc). reflexivity.
Qed.

Lemma unlocated_node_absent_entry G path coords :
  Forall2 (node_coord G) path coords ->
  Exists (fun n => exists nd, node_attrs G n = Ok nd /\ ~ located nd) path ->
  Exists (fun c => ~ present c) coords.
Proof.
  induction 1 as [|n c path coords (nd' & Hn' & ->) _ IH]; intros H.
  - inversion H.
  - inversion H as [? ? (nd & Hn & Hloc)|? ? Hrest]; subst.
    + left. rewrite Hn in Hn'. injection Hn' as <-.
      intros [Hy Hx]. apply Hloc. split; assumption.
    + right. exact (IH Hrest).
Qed.

(** X23: on a graph without edge geometries, when the path found runs
    through a node of the graph that lacks a coordinate, the request is
    refused with a ValidationError and no response is built, although a
    path exists. *)
Theorem path_through_unlocated_node_refused env self request self' G s t path :
  ensure_graph_for_points env self (origin request) (destination request)
    = (Ok tt, self') ->
  graph self' = Some G ->
  no_geometry G ->
  find_nearest_node env self' (origin request) = Ok s ->
  find_nearest_node env self' (destination request) = Ok t ->
  shortest_path G s t = Ok path ->
  Forall (fun n => has_node G n = true) path ->
  Exists (fun n => exists nd, node_attrs G n = Ok nd /\ ~ located nd) path ->
  compute_route env self request = (Raise ValidationError, self').
Proof.
  intros He HG Hng Hs Ht Hp Hall Hex.
  destruct (build_coordinates_no_geometry_total G path Hng Hall)
    as [coords Hc].
  pose proof (build_coordinates_no_geometry G path coords Hng Hc) as Hshape.
  pose proof (validate_coordinates_absent coords
                (unlocated_node_absent_entry G path coords Hshape Hex)) as Hv.
  unfold compute_route. rewrite He. unfold route_on_graph.
  rewrite HG, Hs, Ht. cbn [rbind]. rewrite Hp. cbn [rbind].
  rewrite Hc. cbn [rbind].
  destruct (_build_steps_from_path G path) as [st dist].
  rewrite Hv. reflexivity.
Qed.

Lemma gap_path : shortest_path gap_graph 1%Z 3%Z = Ok [1; 2; 3]%Z.
Proof.
  unfold shortest_path, gap_graph. do 3 dijkstra_step. reflexivity.
Qed.

Lemma path_through_unlocated_node_refused_witness :
  compute_route test_env gap_manager gap_request
  = (Raise ValidationError, gap_manager).
Proof.
  apply (path_through_unlocated_node_refused test_env gap_manager gap_request
           gap_manager gap_graph 1%Z 3%Z [1; 2; 3]%Z).
  - unfold ensure_graph_for_points, _bbox_contains_points, gap_manager,
      gap_request. reval. reflexivity.
  - reflexivity.
  - intros e [<-|[<-|[]]]; reflexivity.
  - unfold find_nearest_node, gap_manager, gap_graph, gap_request.
    reval. reflexivity.
  - unfold find_nearest_node, gap_manager, gap_graph, gap_request.
    reval. reflexivity.
  - apply gap_path.
  - repeat constructor.
  - right. left. exists (mkNodeData None None).
    split; [reflexivity |]. intros [Hx _]. apply Hx. reflexivity.
Defined.

(** ** A request and its reverse *)

Lemma bbox_contains_points_sym self o d :
  _bbox_contains_points self d o = _bbox_contains_points self o d.
Proof.
  unfold _bbox_contains_points.
  destruct (bbox self) as [[[[north south] east] west]|]; [| reflexivity].
  cbn [forallb]. rewrite !andb_true_r. apply andb_comm.
Qed.

Lemma build_graph_for_points_sym env self o d :
  _build_graph_for_points env self d o = _build_graph_for_points env self o d.
Proof.
  unfold _build_graph_for_points. destruct (in_pytest env); [reflexivity |].
  cbv zeta.
  rewrite (proj2 (proj2 (haversine_real_total_nonneg_zero_symmetric d o))).
  replace ((lat d + lat o) / 2) with ((lat o + lat d) / 2) by lra.
  replace ((lon d + lon o) / 2) with ((lon o + lon d) / 2) by lra.
  reflexivity.
Qed.

(** X24: a request and its reverse are treated alike by the graph
    manager: the same coverage test, the same area fetched on a rebuild
    (same midpoint, same radius), and so the same manager afterwards. *)
Theorem reverse_request_same_manager env self request :
  ensure_graph_for_points env self (destination request) (origin request)
  = ensure_graph_for_points env self (origin request) (destination request)
  /\ snd (compute_route env self (reverse_request request))
     = snd (compute_route env self request).
Proof.
  assert (E : forall o d,
             ensure_graph_for_points env self d o
             = ensure_graph_for_points env self o d).
  { intros o d. unfold ensure_graph_for_points.
    rewrite bbox_contains_points_sym, build_graph_for_points_sym.
    reflexivity. }
  split; [apply E |].
  rewrite !compute_route_manager. cbn [reverse_request origin destination].
  rewrite E. reflexivity.
Qed.

(** ** Every step is an edge *)

Lemma path_steps_edges G path :
  Forall
    (fun st =>
       exists e ds,
         In e (edges G)
         /\ get_edge_data G (from_node st) (to_node st) = e_data e :: ds
         /\ ed_weight (e_data e) = Some (step_distance_m st))
    (fst (steps_loop G path [] 0)).
Proof.
  induction path as [|u rest IH]; [constructor |].
  destruct rest as [|v rest']; [constructor |].
  rewrite path_steps_cons.
  destruct (get_edge_data G u v) as [|data ds] eqn:E; [exact IH |].
  destruct (ed_weight data) as [w|] eqn:Ew; [| exact IH].
  constructor; [| exact IH].
  destruct (get_edge_data_in G u v data) as (e & Hin & _ & _ & <-);
    [rewrite E; left; reflexivity |].
  exists e, ds. cbn [from_node to_node step_distance_m].
  repeat split; assumption.
Qed.

Lemma sum_R_nonneg (l : list R) :
  Forall (fun x => 0 <= x) l -> 0 <= sum_R l.
Proof.
  induction 1 as [|x l Hx _ IH].
  - unfold sum_R. cbn. lra.
  - unfold sum_R. cbn [fold_left]. rewrite fold_left_Rplus. lra.
Qed.

(** X25: every step of a computed route is an edge of the graph in use:
    the first, by key, of the edges from the step's [from_node] to its
    [to_node], with that edge's weight as the step's distance.  So when
    no weight of the graph is negative, no step has a negative distance
    and the distance of the route is not negative either. *)
Theorem steps_are_first_edges env self request r self' G :
  compute_route env self request = (Ok r, self') ->
  graph self' = Some G ->
  Forall
    (fun st =>
       exists e ds,
         In e (edges G)
         /\ get_edge_data G (from_node st) (to_node st) = e_data e :: ds
         /\ ed_weight (e_data e) = Some (step_distance_m st))
    (steps r)
  /\ (nonneg_weights G ->
      Forall (fun st => 0 <= step_distance_m st) (steps r)
      /\ 0 <= distance_m r).
Proof.
  intros H HG. apply compute_route_inv in H as [_ H].
  apply route_on_graph_inv in H
    as (G' & s & t & path & coords & coords' & HG' & _ & _ & _ & _ & _
        & Hst & Hd & _).
  rewrite HG in HG'. injection HG' as <-.
  assert (Hedges : Forall
            (fun st =>
               exists e ds,
                 In e (edges G)
                 /\ get_edge_data G (from_node st) (to_node st) = e_data e :: ds
                 /\ ed_weight (e_data e) = Some (step_distance_m st))
            (steps r)).
  { rewrite Hst, build_steps_is_loop. apply path_steps_edges. }
  split; [exact Hedges |].
  intros Hnn.
  assert (Hpos : Forall (fun st => 0 <= step_distance_m st) (steps r)).
  { apply Forall_forall. intros st Hin.
    rewrite Forall_forall in Hedges.
    destruct (Hedges st Hin) as (e & ds & He & _ & Hw).
    pose proof (Hnn e He) as Hge. unfold attr_weight in Hge.
    rewrite Hw in Hge. exact Hge. }
  split; [exact Hpos |].
  rewrite Hd, build_steps_total, <- Hst.
  apply sum_R_nonneg. apply Forall_map. exact Hpos.
Qed.

Lemma steps_are_first_edges_witness :
  Forall
    (fun st =>
       exists e ds,
         In e (edges _build_dummy_graph_for_tests)
         /\ get_edge_data _build_dummy_graph_for_tests (from_node st)
              (to_node st) = e_data e :: ds
         /\ ed_weight (e_data e) = Some (step_distance_m st))
    (steps test_response)
  /\ (nonneg_weights _build_dummy_graph_for_tests ->
      Forall (fun st => 0 <= step_distance_m st) (steps test_response)
      /\ 0 <= distance_m test_response).
Proof.
  apply (steps_are_first_edges test_env GraphManager_init test_request
           test_response dummy_manager _build_dummy_graph_for_tests).
  - apply dummy_compute_route.
  - reflexivity.
Defined.

(** ** The polyline along edge geometries *)

Lemma segment_geometry G i u v data ds pts :
  get_edge_data G u v = data :: ds -> ed_geometry data = Some pts ->
  segment_coordinates G i u v =
  Ok (map (fun xy => (Some (snd xy), Some (fst xy)))
        (if (0 <? i)%nat then tl pts else pts)).
Proof.
  intros Hd Hg. unfold segment_coordinates. cbv zeta. rewrite Hd, Hg.
  destruct (0 <? i)%nat; [| reflexivity].
  destruct pts; reflexivity.
Qed.

Lemma coordinates_loop_geometry G :
  forall path segs i coords,
    geometries G path segs ->
    coordinates_loop G i path coords =
    Ok (coords
        ++ map (fun xy => (Some (snd xy), Some (fst xy)))
             (if (0 <? i)%nat then List.concat (map (@tl (R * R)) segs)
              else joined segs)).
Proof.
  unfold geometries.
  induction path as [|u rest IH]; intros segs i coords Hsegs.
  - inversion Hsegs; subst. destruct (0 <? i)%nat; cbn; rewrite app_nil_r;
      reflexivity.
  - destruct rest as [|v rest'].
    + inversion Hsegs; subst. destruct (0 <? i)%nat; cbn; rewrite app_nil_r;
        reflexivity.
    + change (pairs (u :: v :: rest')) with ((u, v) :: pairs (v :: rest'))
        in Hsegs.
      inversion Hsegs as [|uv pts ps segs' (data & ds & Hd & Hg) Hrest];
        subst.
      change (coordinates_loop G i (u :: v :: rest') coords) with
        (seg <- segment_coordinates G i u v ;;
         coordinates_loop G (S i) (v :: rest') (coords ++ seg)).
      cbn [fst snd] in Hd.
      rewrite (segment_geometry G i u v data ds pts Hd Hg). cbn [rbind].
      rewrite (IH segs' (S i) _ Hrest).
      change (0 <? S i)%nat with true. cbv iota.
      rewrite <- app_assoc, <- map_app. do 3 f_equal.
      destruct (0 <? i)%nat; reflexivity.
Qed.

Lemma validate_coordinates_some (pts : list (R * R)) :
  validate_coordinates (map (fun xy => (Some (snd xy), Some (fst xy))) pts)
  = Ok (map lat_lon pts).
Proof.
  induction pts as [|[x y] pts IH]; [reflexivity |].
  cbn [map validate_coordinates fst snd]. rewrite IH. reflexivity.
Qed.

(** X26: when the first edge (by key) between each two consecutive
    nodes of the path found carries a geometry, the polyline of the
    route is made of those geometries alone: all points of the first,
    then the points of each later one without its first point, each
    point (x, y) given as [lat, lon] = [y, x].  No node coordinate is
    read. *)
Theorem polyline_follows_geometries env self request r self' G :
  compute_route env self request = (Ok r, self') ->
  graph self' = Some G ->
  exists s t path,
    find_nearest_node env self' (origin request) = Ok s
    /\ find_nearest_node env self' (destination request) = Ok t
    /\ walk G s t path
    /\ forall segs,
         (2 <= List.length path)%nat ->
         geometries G path segs ->
         coordinates (geometry r) = map lat_lon (joined segs).
Proof.
  intros H HG. apply compute_route_inv in H as [_ H].
  apply route_on_graph_inv in H
    as (G' & s & t & path & coords & coords' & HG' & Hs & Ht & Hp & Hc & Hv
        & _ & _ & _ & Hgeo).
  rewrite HG in HG'. injection HG' as <-.
  exists s, t, path. repeat split; try assumption.
  - exact (shortest_path_walk G s t path Hp).
  - intros segs Hlen Hsegs.
    destruct path as [|u [|v rest]]; cbn [List.length] in Hlen; try lia.
    change (_build_coordinates_from_path G (u :: v :: rest))
      with (coordinates_loop G 0 (u :: v :: rest) []) in Hc.
    rewrite (coordinates_loop_geometry G _ segs 0%nat [] Hsegs) in Hc.
    injection Hc as <-. cbn [app Nat.ltb Nat.leb] in Hv.
    rewrite validate_coordinates_some in Hv. injection Hv as <-.
    exact Hgeo.
Qed.

Lemma shaped_compute_route :
  compute_route test_env shaped_manager gap_request
  = (Ok shaped_response, shaped_manager).
Proof.
  assert (Hs : find_nearest_node test_env shaped_manager (origin gap_request)
               = Ok 1%Z).
  { unfold find_nearest_node, shaped_manager, shaped_graph, gap_request.
    reval. reflexivity. }
  assert (Ht : find_nearest_node test_env shaped_manager
                 (destination gap_request) = Ok 3%Z).
  { unfold find_nearest_node, shaped_manager, shaped_graph, gap_request.
    reval. reflexivity. }
  assert (Hp : shortest_path shaped_graph 1%Z 3%Z = Ok [1; 2; 3]%Z).
  { unfold shortest_path, shaped_graph. do 3 dijkstra_step. reflexivity. }
  assert (He : ensure_graph_for_points test_env shaped_manager
                 (origin gap_request) (destination gap_request)
               = (Ok tt, shaped_manager)).
  { unfold ensure_graph_for_points, _bbox_contains_points, shaped_manager,
      gap_request. reval. reflexivity. }
  unfold compute_route. rewrite He. unfold route_on_graph.
  change (graph shaped_manager) with (Some shaped_graph). cbv iota beta.
  rewrite Hs, Ht. cbn [rbind]. rewrite Hp. cbn [rbind].
  unfold _build_coordinates_from_path, _build_steps_from_path, shaped_graph.
  reval. unfold MAX_GRAPH_RADIUS_M. rcompare. reflexivity.
Qed.

Lemma polyline_follows_geometries_witness :
  exists s t path,
    find_nearest_node test_env shaped_manager (origin gap_request) = Ok s
    /\ find_nearest_node test_env shaped_manager (destination gap_request)
       = Ok t
    /\ walk shaped_graph s t path
    /\ forall segs,
         (2 <= List.length path)%nat ->
         geometries shaped_graph path segs ->
         coordinates (geometry shaped_response) = map lat_lon (joined segs).
Proof.
  apply (polyline_follows_geometries test_env shaped_manager gap_request
           shaped_response shaped_manager shaped_graph).
  - apply shaped_compute_route.
  - reflexivity.
Defined.
